(** * MemoryPool: a fixed-size-chunk pool allocator (memory_pool.cpp)

    A shallow embedding of [MemoryPool] and [TypedMemoryPool<T>] and the
    properties of the allocator: chunk sizing, block growth, the intrusive
    free list, construction and destruction of typed objects, teardown.

    Platform assumptions (LP64, little endian): [size_t], [uintptr_t] and
    object pointers are 64-bit unsigned integers, the size of a pointer
    to [Chunk] or to [Block] is 8, and unsigned arithmetic wraps modulo 2^64.
    Memory is a flat byte-addressed store. *)

From stdpp Require Import gmap list.
From Stdlib Require Import ZArith Lia.

Open Scope Z_scope.

(** ** Machine words *)

Definition ptr_size : Z := 8.
Definition size_modulus : Z := 2 ^ 64.

(** Result of an unsigned 64-bit operation. *)
Definition wrap (z : Z) : Z := z mod size_modulus.

Definition nullptr : Z := 0.

(** ** Byte-addressed memory *)

(** A byte that was never written reads as 0. *)
Definition byte_at (h : gmap Z Z) (a : Z) : Z := default 0 (h !! a).

Fixpoint load_le (h : gmap Z Z) (a : Z) (n : nat) : Z :=
  match n with
  | O => 0
  | S k => byte_at h a + 256 * load_le h (a + 1) k
  end.

Fixpoint store_le (h : gmap Z Z) (a : Z) (n : nat) (v : Z) : gmap Z Z :=
  match n with
  | O => h
  | S k => store_le (<[a := v mod 256]> h) (a + 1) k (v / 256)
  end.

(** Reading and writing a pointer-sized field, such as [Chunk::next]. *)
Definition load_ptr (h : gmap Z Z) (a : Z) : Z := load_le h a 8.
Definition store_ptr (h : gmap Z Z) (a v : Z) : gmap Z Z := store_le h a 8 v.

(** ** Effects: exceptions and the observable trace *)

(** [std::bad_alloc] derives from [std::exception]; [non_std_exception]
    stands for a thrown object of any other type. *)
Inductive exn : Set :=
  | bad_alloc
  | std_exception
  | non_std_exception.

(** Does [catch(std::exception& e)] handle the exception? *)
Definition is_std_exception (e : exn) : bool :=
  match e with
  | bad_alloc | std_exception => true
  | non_std_exception => false
  end.

(** What an operation does besides updating the pool's fields. [EvRead]
    and [EvWrite] are accesses to the pointer-sized word at the address. *)
Inductive event : Set :=
  | EvNew (size addr : Z)
  | EvDelete (addr : Z)
  | EvRead (addr : Z)
  | EvWrite (addr : Z)
  | EvPrintf (v : Z)
  | EvConstruct (addr : Z)
  | EvDestruct (addr : Z).

Global Instance event_eq_dec : EqDecision event.
Proof. solve_decision. Defined.

(** ** The pool object *)

Record MemoryPool : Set := mkMemoryPool {
  chunk_size_ : Z;
  block_size_ : Z;
  chunks_per_block_ : Z;
  current_block_ : Z;
  current_chunk_ : Z;
  last_chunk_ : Z;
  free_chunks_ : Z
}.

Definition set_current_block_ (v : Z) (p : MemoryPool) : MemoryPool :=
  mkMemoryPool (chunk_size_ p) (block_size_ p) (chunks_per_block_ p)
    v (current_chunk_ p) (last_chunk_ p) (free_chunks_ p).

Definition set_current_chunk_ (v : Z) (p : MemoryPool) : MemoryPool :=
  mkMemoryPool (chunk_size_ p) (block_size_ p) (chunks_per_block_ p)
    (current_block_ p) v (last_chunk_ p) (free_chunks_ p).

Definition set_last_chunk_ (v : Z) (p : MemoryPool) : MemoryPool :=
  mkMemoryPool (chunk_size_ p) (block_size_ p) (chunks_per_block_ p)
    (current_block_ p) (current_chunk_ p) v (free_chunks_ p).

Definition set_free_chunks_ (v : Z) (p : MemoryPool) : MemoryPool :=
  mkMemoryPool (chunk_size_ p) (block_size_ p) (chunks_per_block_ p)
    (current_block_ p) (current_chunk_ p) (last_chunk_ p) v.

(** The state an operation runs in: the pool object, the memory, the
    addresses [operator new[]] will return (in order; when none is left it
    throws [std::bad_alloc]) and the trace so far. *)
Record World : Type := mkWorld {
  pool : MemoryPool;
  heap : gmap Z Z;
  sys : list Z;
  log : list event
}.

Inductive outcome (A : Type) : Type :=
  | Ret (a : A) (w : World)
  | Throw (e : exn) (w : World)
  | Undefined.

Arguments Ret {A} a w.
Arguments Throw {A} e w.
Arguments Undefined {A}.

Definition M (A : Type) : Type := World -> outcome A.

Definition ret {A} (a : A) : M A := fun w => Ret a w.

Definition bind {A B} (m : M A) (k : A -> M B) : M B :=
  fun w =>
    match m w with
    | Ret a w' => k a w'
    | Throw e w' => Throw e w'
    | Undefined => Undefined
    end.

Notation "x <- m ;; k" := (bind m (fun x => k))
  (at level 100, m at level 99, k at level 200, right associativity).
Notation "m ;;; k" := (bind m (fun _ => k))
  (at level 100, k at level 200, right associativity).

Definition get_pool : M MemoryPool := fun w => Ret (pool w) w.

Definition modify_pool (f : MemoryPool -> MemoryPool) : M unit :=
  fun w => Ret tt (mkWorld (f (pool w)) (heap w) (sys w) (log w)).

Definition emit (e : event) : M unit :=
  fun w => Ret tt (mkWorld (pool w) (heap w) (sys w) (log w ++ [e])).

Definition throw {A} (e : exn) : M A := fun w => Throw e w.

Definition undefined {A} : M A := fun _ => Undefined.

(** [p->next] as an rvalue. *)
Definition read_ptr (a : Z) : M Z :=
  fun w => Ret (load_ptr (heap w) a)
               (mkWorld (pool w) (heap w) (sys w) (log w ++ [EvRead a])).

(** [p->next = v]. *)
Definition write_ptr (a v : Z) : M unit :=
  fun w => Ret tt (mkWorld (pool w) (store_ptr (heap w) a v) (sys w)
                           (log w ++ [EvWrite a])).

(** [new char[size]]. *)
Definition new_char_array (size : Z) : M Z :=
  fun w =>
    match sys w with
    | [] => Throw bad_alloc w
    | a :: rest =>
        Ret a (mkWorld (pool w) (heap w) rest (log w ++ [EvNew size a]))
    end.

(** [delete[] reinterpret_cast<char*>(a)]. *)
Definition delete_char_array (a : Z) : M unit := emit (EvDelete a).

(** [try { body } catch(std::exception& e) { handler }]. *)
Definition try_catch_std {A} (body handler : M A) : M A :=
  fun w =>
    match body w with
    | Throw e w' => if is_std_exception e then handler w' else Throw e w'
    | r => r
    end.

(** ** MemoryPool *)

(** [MemoryPool::getAssignment]; [None] is the undefined [% 0]. *)
Definition getAssignment (chunk_size chunk_alignment : Z) : option Z :=
  if chunk_alignment =? 0 then None
  else if chunk_size mod chunk_alignment =? 0 then Some chunk_size
  else Some (wrap (chunk_size / chunk_alignment * wrap (chunk_alignment + 1))).

(** [MemoryPool::MemoryPool]. *)
Definition MemoryPool_ctor
    (chunk_size chunk_alignment initial_chunks_per_block : Z)
    : option MemoryPool :=
  match getAssignment (Z.max ptr_size chunk_size) chunk_alignment with
  | None => None
  | Some cs =>
      Some {| chunk_size_ := cs;
              chunks_per_block_ := initial_chunks_per_block;
              block_size_ :=
                wrap (ptr_size + wrap (wrap (cs + 1) * initial_chunks_per_block));
              current_block_ := nullptr;
              current_chunk_ := nullptr;
              last_chunk_ := nullptr;
              free_chunks_ := nullptr |}
  end.

(** [MemoryPool::allocateBlock]. The parameter is not used by the body,
    which reads [block_size_] itself. *)
Definition allocateBlock (blockSize : Z) : M unit :=
  p <- get_pool ;;
  new_block <- new_char_array (block_size_ p) ;;
  write_ptr new_block (current_block_ p) ;;;
  modify_pool (set_current_block_ new_block) ;;;
  let first_chunk := wrap (new_block + ptr_size) in
  let address := first_chunk in
  if chunk_size_ p =? 0 then undefined
  else
    let padding := wrap (chunk_size_ p - address mod chunk_size_ p) in
    modify_pool (set_current_chunk_ (wrap (first_chunk + padding))) ;;;
    modify_pool (set_last_chunk_
      (wrap (wrap (first_chunk + padding)
             + wrap (chunks_per_block_ p * chunk_size_ p)))).

(** [MemoryPool::allocate]. *)
Definition allocate : M Z :=
  p <- get_pool ;;
  if negb (free_chunks_ p =? nullptr) then
    let mem := free_chunks_ p in
    next <- read_ptr (free_chunks_ p) ;;
    modify_pool (set_free_chunks_ next) ;;;
    ret mem
  else
    (if last_chunk_ p <=? current_chunk_ p
     then allocateBlock (block_size_ p)
     else ret tt) ;;;
    p <- get_pool ;;
    let mem := current_chunk_ p in
    modify_pool (set_current_chunk_ (wrap (mem + chunk_size_ p))) ;;;
    ret mem.

(** [MemoryPool::deallocate]. *)
Definition deallocate (ptr : Z) : M unit :=
  if negb (ptr =? nullptr) then
    p <- get_pool ;;
    write_ptr ptr (free_chunks_ p) ;;;
    modify_pool (set_free_chunks_ ptr)
  else ret tt.

(** [MemoryPool::~MemoryPool]. The loop follows links stored in memory, so
    it is run with a bound on the number of iterations; [None] means the
    bound was reached before the loop ended. *)
Fixpoint MemoryPool_dtor (fuel : nat) (w : World) : option (outcome unit) :=
  match fuel with
  | O => None
  | S fuel' =>
      if negb (current_block_ (pool w) =? nullptr) then
        match
          (emit (EvPrintf (current_block_ (pool w))) ;;;
           next <- read_ptr (current_block_ (pool w)) ;;
           delete_char_array (current_block_ (pool w)) ;;;
           modify_pool (set_current_block_ next)) w
        with
        | Ret _ w' => MemoryPool_dtor fuel' w'
        | r => Some r
        end
      else Some (Ret tt w)
  end.

(** ** TypedMemoryPool<T> *)

(** What the pool needs to know about the element type [T]: its size and
    alignment, what its constructor does to the memory it is given a
    pointer to, and what its destructor does. Either may exit by an
    exception (a destructor only if it is declared [noexcept(false)]). *)
Class CxxType (Args : Type) : Type := {
  sizeof_T : Z;
  alignof_T : Z;
  constructor_T : Args -> Z -> gmap Z Z -> gmap Z Z * option exn;
  destructor_T : Z -> gmap Z Z -> gmap Z Z * option exn
}.

Section TypedMemoryPool.
Context {Args : Type} `{CxxType Args}.

(** [TypedMemoryPool<T>::TypedMemoryPool]. *)
Definition TypedMemoryPool_ctor (initial_chunks_per_block : Z)
    : option MemoryPool :=
  MemoryPool_ctor sizeof_T alignof_T initial_chunks_per_block.

(** [new(mem) T{args...}]. *)
Definition placement_new (args : Args) (mem : Z) : M Z :=
  fun w =>
    let (h', r) := constructor_T args mem (heap w) in
    let w' := mkWorld (pool w) h' (sys w) (log w ++ [EvConstruct mem]) in
    match r with
    | None => Ret mem w'
    | Some e => Throw e w'
    end.

(** [ptr->~T()]. *)
Definition call_destructor (ptr : Z) : M unit :=
  fun w =>
    let (h', r) := destructor_T ptr (heap w) in
    let w' := mkWorld (pool w) h' (sys w) (log w ++ [EvDestruct ptr]) in
    match r with
    | None => Ret tt w'
    | Some e => Throw e w'
    end.

(** [TypedMemoryPool<T>::make]. *)
Definition make (args : Args) : M Z :=
  mem <- allocate ;;
  obj <- try_catch_std
           (placement_new args mem)
           (let obj := nullptr in deallocate mem ;;; ret obj) ;;
  ret obj.

(** [TypedMemoryPool<T>::destroy]. *)
Definition destroy (ptr : Z) : M unit :=
  if negb (ptr =? nullptr) then
    try_catch_std (call_destructor ptr) (ret tt) ;;;
    deallocate ptr
  else ret tt.
End TypedMemoryPool.

(** ** Drivers: repeated calls, as in the loops of [main] *)

Fixpoint allocate_n (n : nat) : M (list Z) :=
  match n with
  | O => ret []
  | S k => a <- allocate ;; l <- allocate_n k ;; ret (a :: l)
  end.

Fixpoint deallocate_all (ptrs : list Z) : M unit :=
  match ptrs with
  | [] => ret tt
  | ptr :: rest => deallocate ptr ;;; deallocate_all rest
  end.

Definition is_new (e : event) : bool :=
  match e with EvNew _ _ => true | _ => false end.

(** Number of blocks obtained from [operator new[]] in a trace. *)
Definition new_count (l : list event) : nat := length (List.filter is_new l).

(** The calls, among [k] consecutive calls of [allocate] numbered from
    [i], that obtained a new block. *)
Fixpoint allocating_calls (i : nat) (k : nat) (w : World) : option (list nat) :=
  match k with
  | O => Some []
  | S k' =>
      match allocate w with
      | Ret _ w' =>
          match allocating_calls (S i) k' w' with
          | Some rest =>
              Some (if Nat.eqb (new_count (log w')) (new_count (log w))
                    then rest else i :: rest)
          | None => None
          end
      | _ => None
      end
  end.

(** A world with a newly constructed pool and nothing in memory. *)
Definition fresh_world (p : MemoryPool) (addrs : list Z) : World :=
  mkWorld p ∅ addrs [].

(** ** Vocabulary of the properties *)

(** [r] is the smallest multiple of [alignment] that is at least [base]. *)
Definition rounds_up_to (base alignment r : Z) : Prop :=
  base ≤ r ∧ (alignment | r) ∧
  ∀ r', base ≤ r' → (alignment | r') → r ≤ r'.

(** The [cs] bytes at [a] lie inside the array obtained by this [new]. *)
Definition in_block (cs a : Z) (e : event) : bool :=
  match e with
  | EvNew size b => (b <=? a) && (a + cs <=? b + size)
  | _ => false
  end.

(** The chunk of [cs] bytes at [a] lies inside one of the blocks that the
    trace [l] shows were obtained. *)
Definition chunk_within_block (l : list event) (cs a : Z) : bool :=
  existsb (in_block cs a) l.

(** Addresses of the blocks obtained in a trace, oldest first. *)
Definition blocks_obtained (l : list event) : list Z :=
  omap (λ e, match e with EvNew _ b => Some b | _ => None end) l.

(** Addresses of the blocks released in a trace, in order. *)
Definition blocks_released (l : list event) : list Z :=
  omap (λ e, match e with EvDelete b => Some b | _ => None end) l.

(** A null-terminated singly linked list in memory whose link is the first
    word of each node: [head] points to the first node of [l], each node's
    link to the next, the last node's link is null. *)
Fixpoint linked (h : gmap Z Z) (head : Z) (l : list Z) : Prop :=
  match l with
  | [] => head = nullptr
  | a :: rest =>
      head = a ∧ 0 < a < size_modulus ∧ linked h (load_ptr h a) rest
  end.

(** The free list of chunks, through [Chunk::next]. *)
Definition free_list (w : World) (l : list Z) : Prop :=
  linked (heap w) (free_chunks_ (pool w)) l.

(** The list of blocks, through [Block::next]. *)
Definition block_list (w : World) (l : list Z) : Prop :=
  linked (heap w) (current_block_ (pool w)) l.

(** The pointer-sized word at [a] does not overlap the one at [b]. *)
Definition word_disjoint (a b : Z) : Prop :=
  a + ptr_size ≤ b ∨ b + ptr_size ≤ a.

(** The pointer-sized word at [a], which is what a read or a write of a
    link at [a] touches, lies inside the chunk of [cs] bytes at [chunk]. *)
Definition link_within_chunk (cs chunk a : Z) : bool :=
  (chunk <=? a) && (a + ptr_size <=? chunk + cs).

(** The trace of the teardown of the blocks [bs]. *)
Definition teardown_trace (bs : list Z) : list event :=
  concat (map (λ b, [EvPrintf b; EvRead b; EvDelete b]) bs).

(** The bytes from the start of a block that a pool with [n] chunks of
    [cs] bytes per block may address: the link, a padding of up to one
    chunk, and the chunks. This can be more than [block_size_]. *)
Definition extent (cs n : Z) : Z := ptr_size + (n + 1) * cs.

(** The addresses a block at [b] makes the pool use are below 2^64. *)
Definition block_addressable (cs n b : Z) : Prop :=
  0 < b ∧ b + extent cs n < size_modulus.

(** Block growth as "exactly one block, obtained by the last call": of
    [chunks_per_block_ + 1] calls of [allocate] on a new pool, only the
    last one obtains a block. *)
Definition one_block_on_last_call (p : MemoryPool) (addrs : list Z) : Prop :=
  allocating_calls 1 (Z.to_nat (chunks_per_block_ p + 1)) (fresh_world p addrs)
  = Some [Z.to_nat (chunks_per_block_ p + 1)].

(** ** Element types used in the examples *)

(** [struct DummyPoint { int x; int y; int z; }], brace-initialised from
    three [int]s; trivially destructible. *)
Definition DummyPoint_ctor (args : Z * Z * Z) (mem : Z) (h : gmap Z Z)
    : gmap Z Z * option exn :=
  let '(x, y, z) := args in
  (store_le (store_le (store_le h mem 4 (x mod 2 ^ 32))
                      (mem + 4) 4 (y mod 2 ^ 32))
            (mem + 8) 4 (z mod 2 ^ 32),
   None).

Global Instance DummyPoint : CxxType (Z * Z * Z) := {|
  sizeof_T := 12;
  alignof_T := 4;
  constructor_T := DummyPoint_ctor;
  destructor_T := λ _ h, (h, None)
|}.

(** A one-byte class for exercising the exception paths. Its constructor
    takes what to throw from the constructor (if anything) and what to
    throw from the destructor (if anything); the latter is kept in the
    object. The destructor is [noexcept(false)]. *)
Definition exn_code (e : option exn) : Z :=
  match e with
  | None => 0
  | Some bad_alloc => 1
  | Some std_exception => 2
  | Some non_std_exception => 3
  end.

Definition exn_of_code (c : Z) : option exn :=
  if c =? 1 then Some bad_alloc
  else if c =? 2 then Some std_exception
  else if c =? 3 then Some non_std_exception
  else None.

Global Instance Thrower : CxxType (option exn * option exn) := {|
  sizeof_T := 1;
  alignof_T := 1;
  constructor_T := λ args mem h,
    match fst args with
    | Some e => (h, Some e)
    | None => (<[mem := exn_code (snd args)]> h, None)
    end;
  destructor_T := λ ptr h, (h, exn_of_code (byte_at h ptr))
|}.

(** ** The worlds the paths of [allocate] and [deallocate] lead to *)

(** After the free list's head has been taken off. *)
Definition popped (w : World) : World :=
  mkWorld (set_free_chunks_ (load_ptr (heap w) (free_chunks_ (pool w))) (pool w))
          (heap w) (sys w) (log w ++ [EvRead (free_chunks_ (pool w))]).

(** After the cursor has moved on by one chunk. *)
Definition bumped (w : World) : World :=
  mkWorld (set_current_chunk_
             (wrap (current_chunk_ (pool w) + chunk_size_ (pool w))) (pool w))
          (heap w) (sys w) (log w).

(** After [ptr] has been put on the free list. *)
Definition pushed (ptr : Z) (w : World) : World :=
  mkWorld (set_free_chunks_ ptr (pool w))
          (store_ptr (heap w) ptr (free_chunks_ (pool w)))
          (sys w) (log w ++ [EvWrite ptr]).

(** Address of the first chunk of a block at [b]: the link is skipped,
    then [padding] bytes. *)
Definition first_chunk_of (cs b : Z) : Z :=
  let first_chunk := wrap (b + ptr_size) in
  wrap (first_chunk + wrap (cs - first_chunk mod cs)).

(** After [allocateBlock] has obtained the block at [b]. *)
Definition with_block (b : Z) (rest : list Z) (w : World) : World :=
  mkWorld
    (set_last_chunk_
       (wrap (first_chunk_of (chunk_size_ (pool w)) b
              + wrap (chunks_per_block_ (pool w) * chunk_size_ (pool w))))
       (set_current_chunk_ (first_chunk_of (chunk_size_ (pool w)) b)
          (set_current_block_ b (pool w))))
    (store_ptr (heap w) b (current_block_ (pool w)))
    rest
    ((log w ++ [EvNew (block_size_ (pool w)) b]) ++ [EvWrite b]).

(** ** Pools in use: the calls a caller may make, and what is kept *)

(** The [i]-th chunk of the block at [b]. *)
Definition chunk_at (cs b i : Z) : Z := first_chunk_of cs b + i * cs.

(** The extents of the blocks at [b] and [b'] do not meet. *)
Definition apart (cs n b b' : Z) : Prop :=
  b + extent cs n ≤ b' ∨ b' + extent cs n ≤ b.

(** What is assumed of the addresses [operator new[]] returns: each block
    is addressable and the extents of any two do not meet. *)
Fixpoint spaced (cs n : Z) (addrs : list Z) : Prop :=
  match addrs with
  | [] => True
  | b :: rest =>
      block_addressable cs n b ∧ Forall (apart cs n b) rest ∧ spaced cs n rest
  end.

(** [a] is the address of a chunk of one of the blocks [bs]. *)
Definition is_chunk (cs n : Z) (bs : list Z) (a : Z) : Prop :=
  ∃ b i, b ∈ bs ∧ 0 ≤ i < n ∧ a = chunk_at cs b i.

(** [a] is a chunk the cursor has passed: any chunk of an older block, or a
    chunk of the current block (the head of [bs]) below the cursor. *)
Definition issued (cs n cursor : Z) (bs : list Z) (a : Z) : Prop :=
  match bs with
  | [] => False
  | b :: older =>
      (∃ i, 0 ≤ i < n ∧ a = chunk_at cs b i ∧ a < cursor)
      ∨ is_chunk cs n older a
  end.

(** [a] is a chunk of the current block that the cursor has not reached. *)
Definition unreached (cs n cursor : Z) (bs : list Z) (a : Z) : Prop :=
  match bs with
  | [] => False
  | b :: _ => ∃ i, 0 ≤ i < n ∧ a = chunk_at cs b i ∧ cursor ≤ a
  end.

(** Where the cursor and the limit are, given the blocks obtained so far
    (newest first). *)
Definition cursor_ok (cs n : Z) (p : MemoryPool) (bs : list Z) : Prop :=
  match bs with
  | [] =>
      current_block_ p = nullptr ∧ current_chunk_ p = nullptr
      ∧ last_chunk_ p = nullptr
  | b :: _ =>
      current_block_ p = b
      ∧ last_chunk_ p = chunk_at cs b n
      ∧ ∃ k, 0 < k ≤ n ∧ current_chunk_ p = chunk_at cs b k
  end.

(** One call by the caller, who holds the chunks [out]: [allocate],
    [deallocate] of a chunk it holds or of null, or a write of one byte
    into a chunk it holds. *)
Inductive step (w : World) (out : list Z) : World → list Z → Prop :=
  | step_allocate a w' :
      allocate w = Ret a w' →
      step w out w' (a :: out)
  | step_deallocate out1 ptr out2 w' :
      out = out1 ++ ptr :: out2 →
      deallocate ptr w = Ret tt w' →
      step w out w' (out1 ++ out2)
  | step_deallocate_null w' :
      deallocate nullptr w = Ret tt w' →
      step w out w' out
  | step_write ptr a v :
      ptr ∈ out →
      ptr ≤ a < ptr + chunk_size_ (pool w) →
      step w out (mkWorld (pool w) (<[a := v]> (heap w)) (sys w) (log w)) out.

(** The worlds a caller can bring a new pool to, with the chunks it then
    holds. *)
Inductive reachable (p0 : MemoryPool) (addrs : list Z)
    : World → list Z → Prop :=
  | reachable_fresh :
      reachable p0 addrs (fresh_world p0 addrs) []
  | reachable_step w out w' out' :
      reachable p0 addrs w out →
      step w out w' out' →
      reachable p0 addrs w' out'.

(** What is kept, in terms of the blocks obtained so far [bs] (newest
    first) and the chunks on the free list [fl]. *)
Record pool_inv (p0 : MemoryPool) (addrs : list Z) (w : World)
    (out bs fl : list Z) : Prop := mk_pool_inv {
  inv_chunk_size : chunk_size_ (pool w) = chunk_size_ p0;
  inv_chunks_per_block : chunks_per_block_ (pool w) = chunks_per_block_ p0;
  inv_block_size : block_size_ (pool w) = block_size_ p0;
  inv_tape : addrs = reverse bs ++ sys w;
  inv_log : blocks_obtained (log w) = reverse bs;
  inv_released : blocks_released (log w) = [];
  inv_blocks : block_list w bs;
  inv_free : free_list w fl;
  inv_nodup : NoDup (out ++ fl);
  inv_issued :
    ∀ a, a ∈ out ++ fl
         ↔ issued (chunk_size_ p0) (chunks_per_block_ p0)
                  (current_chunk_ (pool w)) bs a;
  inv_cursor : cursor_ok (chunk_size_ p0) (chunks_per_block_ p0) (pool w) bs
}.

(** A pool as its constructor leaves it. *)
Definition is_fresh (p : MemoryPool) : Prop :=
  current_block_ p = nullptr ∧ current_chunk_ p = nullptr
  ∧ last_chunk_ p = nullptr ∧ free_chunks_ p = nullptr.

(** ** Vocabulary of the further properties *)

(** The chunks of the block at [b], in address order. *)
Definition block_chunks (cs n b : Z) : list Z :=
  map (chunk_at cs b) (seqZ 0 n).

(** A pool in use, for the examples: chunks of 12 bytes, 10 per block,
    one block at 16; three chunks were allocated (36, 48, 60) and the one
    at 48 was freed. *)
Definition example_pool : MemoryPool := mkMemoryPool 12 138 10 0 0 0 0.

Definition example_world : World :=
  mkWorld (mkMemoryPool 12 138 10 16 72 156 48)
          (store_ptr (store_ptr ∅ 16 0) 48 0)
          [1024]
          [EvNew 138 16; EvWrite 16; EvWrite 48].

(** The constructor and the destructor of [T] change no byte outside the
    object they are given. *)
Definition confined {Args : Type} (T : CxxType Args) : Prop :=
  (∀ args mem h x,
     x < mem ∨ mem + sizeof_T ≤ x →
     (constructor_T args mem h).1 !! x = h !! x) ∧
  (∀ ptr h x,
     x < ptr ∨ ptr + sizeof_T ≤ x →
     (destructor_T ptr h).1 !! x = h !! x).

(** One call of [make] or [destroy] that returns, by a caller who holds the
    objects [live]: a [make] that returns an object, a [make] that returns
    null, or the [destroy] of an object it holds. *)
Inductive typed_step {Args : Type} {T : CxxType Args}
    (w : World) (live : list Z) : World → list Z → Prop :=
  | typed_make args obj w' :
      make args w = Ret obj w' →
      obj ≠ nullptr →
      typed_step w live w' (obj :: live)
  | typed_make_null args w' :
      make args w = Ret nullptr w' →
      typed_step w live w' live
  | typed_destroy l1 ptr l2 w' :
      live = l1 ++ ptr :: l2 →
      destroy ptr w = Ret tt w' →
      typed_step w live w' (l1 ++ l2).

(** The worlds the user of a [TypedMemoryPool<T>] can bring a new pool to,
    with the objects it then holds. *)
Inductive typed_reachable {Args : Type} {T : CxxType Args}
    (p0 : MemoryPool) (addrs : list Z) : World → list Z → Prop :=
  | typed_reachable_fresh :
      typed_reachable p0 addrs (fresh_world p0 addrs) []
  | typed_reachable_step w live w' live' :
      typed_reachable p0 addrs w live →
      typed_step w live w' live' →
      typed_reachable p0 addrs w' live'.

(** The pool of [main]'s [TypedMemoryPool<DummyPoint> m(10)] after
    [a = m.make(10, 20, 30); b = m.make(10, 20, 30); m.destroy(a)], its
    first block being at 16: [b], at 48, is held, and the chunk at 36 is
    free. *)
Definition typed_example_world : World :=
  mkWorld (mkMemoryPool 12 138 10 16 60 156 36)
          (store_ptr
             (DummyPoint_ctor (10, 20, 30) 48
                (DummyPoint_ctor (10, 20, 30) 36 (store_ptr ∅ 16 0)).1).1
             36 0)
          [1024]
          [EvNew 138 16; EvWrite 16; EvConstruct 36; EvConstruct 48;
           EvDestruct 36; EvWrite 36].

(** * Properties *)

(** ** Memory *)

Lemma byte_at_insert_eq (h : gmap Z Z) a v : byte_at (<[a := v]> h) a = v.
Proof. unfold byte_at. by rewrite lookup_insert_eq. Qed.

Lemma byte_at_insert_ne (h : gmap Z Z) a x v :
  a ≠ x → byte_at (<[a := v]> h) x = byte_at h x.
Proof. intros Hne. unfold byte_at. by rewrite lookup_insert_ne. Qed.

(** A store of [n] bytes at [a] leaves every other cell as it was. *)
Lemma lookup_store_le_out n : ∀ (h : gmap Z Z) a v x,
  x < a ∨ a + Z.of_nat n ≤ x → store_le h a n v !! x = h !! x.
Proof.
  induction n as [|n IH]; intros h a v x Hx; simpl; [done|].
  rewrite IH by lia. apply lookup_insert_ne. lia.
Qed.

Lemma byte_at_store_le_out n (h : gmap Z Z) a v x :
  x < a ∨ a + Z.of_nat n ≤ x → byte_at (store_le h a n v) x = byte_at h x.
Proof. intros Hx. unfold byte_at. by rewrite lookup_store_le_out. Qed.

Lemma load_le_ext n : ∀ (h h' : gmap Z Z) a,
  (∀ x, a ≤ x < a + Z.of_nat n → byte_at h x = byte_at h' x) →
  load_le h a n = load_le h' a n.
Proof.
  induction n as [|n IH]; intros h h' a Hagree; simpl; [done|].
  rewrite (Hagree a) by lia. rewrite (IH h h' (a + 1)); [done|].
  intros x Hx. apply Hagree. lia.
Qed.

Lemma load_le_store_le n : ∀ (h : gmap Z Z) a v,
  load_le (store_le h a n v) a n = v mod 256 ^ Z.of_nat n.
Proof.
  induction n as [|n IH]; intros h a v.
  - simpl. by rewrite Z.mod_1_r.
  - cbn [load_le store_le]. rewrite IH.
    rewrite byte_at_store_le_out by lia. rewrite byte_at_insert_eq.
    rewrite Nat2Z.inj_succ, Z.pow_succ_r by lia.
    rewrite Z.rem_mul_r by lia. done.
Qed.

Lemma load_ptr_store_ptr_eq (h : gmap Z Z) a v :
  0 ≤ v < size_modulus → load_ptr (store_ptr h a v) a = v.
Proof.
  intros Hv. unfold load_ptr, store_ptr. rewrite load_le_store_le.
  apply Z.mod_small. exact Hv.
Qed.

(** Two pointer-sized words that do not overlap are independent. *)
Lemma load_ptr_store_ptr_ne (h : gmap Z Z) a a' v :
  a' + ptr_size ≤ a ∨ a + ptr_size ≤ a' →
  load_ptr (store_ptr h a v) a' = load_ptr h a'.
Proof.
  unfold ptr_size. intros Hd. unfold load_ptr, store_ptr.
  apply load_le_ext. intros x Hx. apply byte_at_store_le_out. lia.
Qed.

(** ** The equations of [allocate] and [deallocate], one per path *)

Lemma allocate_pop w :
  free_chunks_ (pool w) ≠ nullptr →
  allocate w = Ret (free_chunks_ (pool w)) (popped w).
Proof.
  intros Hne. unfold allocate, bind, get_pool.
  destruct (Z.eqb_spec (free_chunks_ (pool w)) nullptr) as [|_]; [done|].
  reflexivity.
Qed.

Lemma allocate_bump w :
  free_chunks_ (pool w) = nullptr →
  current_chunk_ (pool w) < last_chunk_ (pool w) →
  allocate w = Ret (current_chunk_ (pool w)) (bumped w).
Proof.
  intros Hfree Hlt. unfold allocate, bind, get_pool. rewrite Hfree. simpl.
  destruct (Z.leb_spec (last_chunk_ (pool w)) (current_chunk_ (pool w)));
    [lia|].
  destruct w as [p h s l]. reflexivity.
Qed.

Lemma deallocate_null w : deallocate nullptr w = Ret tt w.
Proof. reflexivity. Qed.

Lemma deallocate_push ptr w :
  ptr ≠ nullptr → deallocate ptr w = Ret tt (pushed ptr w).
Proof.
  intros Hne. unfold deallocate.
  destruct (Z.eqb_spec ptr nullptr) as [|_]; [done|]. reflexivity.
Qed.

Lemma allocateBlock_eq sz b rest w :
  sys w = b :: rest → chunk_size_ (pool w) ≠ 0 →
  allocateBlock sz w = Ret tt (with_block b rest w).
Proof.
  intros Hsys Hcs. unfold allocateBlock, bind, get_pool, new_char_array.
  rewrite Hsys. cbn -[wrap Z.modulo Z.mul Z.add Z.sub].
  destruct (Z.eqb_spec (chunk_size_ (pool w)) 0) as [|_]; [done|].
  reflexivity.
Qed.

Lemma allocate_grow b rest w :
  free_chunks_ (pool w) = nullptr →
  last_chunk_ (pool w) ≤ current_chunk_ (pool w) →
  sys w = b :: rest → chunk_size_ (pool w) ≠ 0 →
  allocate w
  = Ret (first_chunk_of (chunk_size_ (pool w)) b) (bumped (with_block b rest w)).
Proof.
  intros Hfree Hle Hsys Hcs. unfold allocate, bind at 1, get_pool at 1.
  rewrite Hfree. cbn [negb Z.eqb nullptr].
  destruct (Z.leb_spec (last_chunk_ (pool w)) (current_chunk_ (pool w)));
    [|lia].
  unfold bind at 1. rewrite (allocateBlock_eq _ b rest) by done.
  reflexivity.
Qed.

Lemma allocate_out_of_memory w :
  free_chunks_ (pool w) = nullptr →
  last_chunk_ (pool w) ≤ current_chunk_ (pool w) →
  sys w = [] →
  allocate w = Throw bad_alloc w.
Proof.
  intros Hfree Hle Hsys. unfold allocate, bind at 1, get_pool at 1.
  rewrite Hfree. cbn [negb Z.eqb nullptr].
  destruct (Z.leb_spec (last_chunk_ (pool w)) (current_chunk_ (pool w)));
    [|lia].
  unfold bind, allocateBlock, bind, get_pool, new_char_array.
  by rewrite Hsys.
Qed.

(** ** Arithmetic of the block layout *)

Lemma wrap_small z : 0 ≤ z < size_modulus → wrap z = z.
Proof. apply Z.mod_small. Qed.

Lemma size_modulus_pos : 0 < size_modulus.
Proof. reflexivity. Qed.

(** Without wrap-around the first chunk of a block starts at the first
    multiple of the chunk size strictly after the link. *)
Lemma first_chunk_of_spec cs b :
  0 < cs → 0 ≤ b →
  b + ptr_size + cs < size_modulus →
  first_chunk_of cs b = b + ptr_size + (cs - (b + ptr_size) mod cs)
  ∧ b + ptr_size < first_chunk_of cs b ≤ b + ptr_size + cs
  ∧ first_chunk_of cs b mod cs = 0.
Proof.
  intros Hcs Hb Hfit. unfold first_chunk_of, ptr_size in *.
  pose proof (Z.mod_pos_bound (b + 8) cs Hcs) as Hm.
  rewrite (wrap_small (b + 8)) by lia.
  rewrite (wrap_small (cs - _)) by lia.
  rewrite wrap_small by lia.
  split; [done|]. split; [lia|].
  replace (b + 8 + (cs - (b + 8) mod cs))
    with ((b + 8 - (b + 8) mod cs) + 1 * cs) by lia.
  rewrite Z.mod_add by lia.
  rewrite Zminus_mod, Z.mod_mod, Z.sub_diag by lia. apply Z.mod_0_l. lia.
Qed.

(** ** Layout of blocks and chunks *)

Section Layout.
Variables cs n : Z.
Hypothesis Hcs : ptr_size ≤ cs.
Hypothesis Hn : 1 ≤ n.

Lemma apart_sym b b' : apart cs n b b' → apart cs n b' b.
Proof. unfold apart. lia. Qed.

Lemma spaced_app l1 l2 :
  spaced cs n (l1 ++ l2)
  ↔ spaced cs n l1 ∧ spaced cs n l2
    ∧ ∀ b b', b ∈ l1 → b' ∈ l2 → apart cs n b b'.
Proof.
  induction l1 as [|x l1 IH]; simpl.
  - split; [|tauto]. intros H. split; [done|]. split; [done|].
    intros b b' Hb. by apply elem_of_nil in Hb.
  - rewrite Forall_app, IH. split.
    + intros (Hx & (Hx1 & Hx2) & H1 & H2 & Hc).
      split; [done|]. split; [done|].
      intros b b' [->|Hb]%elem_of_cons Hb'.
      * by eapply Forall_forall in Hx2.
      * by apply Hc.
    + intros ((Hx & Hx1 & H1) & H2 & Hc).
      split; [done|]. split; [split; [done|] | split; [done|split; [done|]]].
      * apply Forall_forall. intros b' Hb'. apply Hc; [by left | done].
      * intros b b' Hb Hb'. apply Hc; [by right | done].
Qed.

Lemma spaced_reverse l : spaced cs n l → spaced cs n (reverse l).
Proof.
  induction l as [|x l IH]; [done|]. rewrite reverse_cons. simpl.
  intros (Hx & Hxl & Hl). apply spaced_app. split; [by apply IH|].
  split; [by simpl|].
  intros b b' Hb ->%list_elem_of_singleton. apply apart_sym.
  rewrite Forall_forall in Hxl. apply Hxl. by apply elem_of_reverse.
Qed.

Lemma spaced_addressable l b : spaced cs n l → b ∈ l → block_addressable cs n b.
Proof.
  induction l as [|x l IH]; simpl; [by intros _ ?%elem_of_nil|].
  intros (Hx & _ & Hl) [->|Hb]%elem_of_cons; [done | by apply IH].
Qed.

Lemma spaced_pair l b b' :
  spaced cs n l → b ∈ l → b' ∈ l → b = b' ∨ apart cs n b b'.
Proof.
  induction l as [|x l IH]; simpl; [by intros _ ?%elem_of_nil|].
  intros (Hx & Hxl & Hl) [->|Hb]%elem_of_cons [->|Hb']%elem_of_cons.
  - by left.
  - right. by eapply Forall_forall in Hxl.
  - right. apply apart_sym. by eapply Forall_forall in Hxl.
  - by apply IH.
Qed.

(** The chunks of a block, and the limit, lie after the link and inside
    the extent. *)
Lemma chunk_at_bounds b i :
  block_addressable cs n b → 0 ≤ i ≤ n →
  b + ptr_size < chunk_at cs b i ∧ chunk_at cs b i ≤ b + extent cs n
  ∧ (i < n → chunk_at cs b i + cs ≤ b + extent cs n)
  ∧ chunk_at cs b i = first_chunk_of cs b + i * cs.
Proof.
  intros [Hb Hfit] Hi. unfold chunk_at, extent, ptr_size in *.
  destruct (first_chunk_of_spec cs b) as (_ & Hc0 & _);
    [lia | lia | unfold ptr_size; nia |].
  unfold ptr_size in Hc0. repeat split; try nia.
Qed.

(** Two chunks of the same block or of blocks apart are the same chunk or
    do not overlap. *)
Lemma chunks_separate b b' i i' :
  block_addressable cs n b → block_addressable cs n b' →
  b = b' ∨ apart cs n b b' →
  0 ≤ i < n → 0 ≤ i' < n →
  (b = b' ∧ i = i')
  ∨ chunk_at cs b i + cs ≤ chunk_at cs b' i'
  ∨ chunk_at cs b' i' + cs ≤ chunk_at cs b i.
Proof.
  intros Hb Hb' Hbb Hi Hi'.
  destruct (chunk_at_bounds b i) as (H1 & _ & H2 & H3); [done | lia |].
  destruct (chunk_at_bounds b' i') as (H1' & _ & H2' & H3'); [done | lia |].
  destruct Hbb as [<-|Hap].
  - rewrite H3, H3'. unfold ptr_size in *.
    destruct (Z.lt_trichotomy i i') as [Hlt|[->|Hgt]]; [|by left|].
    + right. left. nia.
    + right. right. nia.
  - right. unfold apart, ptr_size in *. lia.
Qed.

(** No chunk overlaps the link of a block. *)
Lemma chunk_link_separate b b' i :
  block_addressable cs n b → block_addressable cs n b' →
  b = b' ∨ apart cs n b b' →
  0 ≤ i < n →
  b' + ptr_size ≤ chunk_at cs b i ∨ chunk_at cs b i + cs ≤ b'.
Proof.
  intros Hb Hb' Hbb Hi.
  destruct (chunk_at_bounds b i) as (H1 & _ & H2 & _); [done | lia |].
  destruct Hbb as [<-|Hap]; [lia|].
  unfold apart, extent, ptr_size in *. destruct Hb as [? _], Hb' as [? _].
  nia.
Qed.

End Layout.

(** ** Chunk size *)

(** When the alignment divides the size asked for (raised to the size of a
    pointer), [getAssignment] returns it, which is the rounded value. *)
Lemma getAssignment_divisible base alignment :
  0 < alignment → base mod alignment = 0 →
  getAssignment base alignment = Some base ∧ rounds_up_to base alignment base.
Proof.
  intros Ha Hmod. unfold getAssignment.
  destruct (Z.eqb_spec alignment 0); [lia|].
  rewrite Hmod. simpl. split; [done|].
  split; [lia|]. split; [|intros; lia].
  apply Z.mod_divide; [lia | done].
Qed.

(** Otherwise it returns the quotient times the alignment plus one, which
    is the size asked for less the remainder plus the quotient. *)
Lemma getAssignment_not_divisible base alignment :
  0 < alignment → 0 ≤ base → base mod alignment ≠ 0 →
  alignment + 1 < size_modulus →
  base / alignment * (alignment + 1) < size_modulus →
  getAssignment base alignment
  = Some (base - base mod alignment + base / alignment).
Proof.
  intros Ha Hb Hmod Hfit1 Hfit2. unfold getAssignment.
  destruct (Z.eqb_spec alignment 0); [lia|].
  destruct (Z.eqb_spec (base mod alignment) 0); [done|].
  f_equal. rewrite (wrap_small (alignment + 1)) by lia.
  assert (0 ≤ base / alignment) by (apply Z.div_pos; lia).
  rewrite wrap_small by nia.
  pose proof (Z.div_mod base alignment). lia.
Qed.

(** The constructor leaves the pool without blocks and without free
    chunks. *)
Lemma MemoryPool_ctor_fresh chunk_size chunk_alignment n p :
  MemoryPool_ctor chunk_size chunk_alignment n = Some p →
  is_fresh p ∧ chunks_per_block_ p = n.
Proof.
  unfold MemoryPool_ctor. destruct (getAssignment _ _); [|done].
  intros [= <-]. by repeat split.
Qed.

(** When the alignment divides the size asked for (raised to the size of a
    pointer), as it does for [sizeof(T)] and [alignof(T)], a chunk can hold
    a link. *)
Lemma MemoryPool_ctor_aligned chunk_size chunk_alignment n :
  0 < chunk_alignment →
  Z.max ptr_size chunk_size mod chunk_alignment = 0 →
  ∃ p, MemoryPool_ctor chunk_size chunk_alignment n = Some p
       ∧ chunk_size_ p = Z.max ptr_size chunk_size
       ∧ ptr_size ≤ chunk_size_ p.
Proof.
  intros Ha Hmod. unfold MemoryPool_ctor.
  destruct (getAssignment_divisible _ _ Ha Hmod) as [-> _].
  eexists. split; [reflexivity|]. simpl. split; [done | lia].
Qed.

(** C1 (fails): a pool for chunks of 12 bytes aligned to 8 gets chunks of
    9 bytes, which is neither at least 12 nor a multiple of 8; the rounded
    size is 16. *)
Theorem C1_chunk_size_not_rounded_up :
  ∃ p,
    MemoryPool_ctor 12 8 10 = Some p ∧
    chunk_size_ p = 9 ∧
    ¬ rounds_up_to (Z.max ptr_size 12) 8 (chunk_size_ p) ∧
    rounds_up_to (Z.max ptr_size 12) 8 16.
Proof.
  eexists. split; [reflexivity|]. split; [reflexivity|]. split.
  - intros (Hge & _). vm_compute in Hge. by apply Hge.
  - split; [by vm_compute|]. split; [by exists 2|].
    intros r' Hge (k & ->). change (Z.max ptr_size 12) with 12 in Hge. lia.
Qed.

(** ** Chunks and the bounds of their block *)

(** C2 (fails): in a pool for chunks of 12 bytes with 10 chunks per block,
    whose block of 138 bytes is at address 16, the tenth chunk is at 144 and
    ends at 156, past the end of the block at 154. *)
Theorem C2_chunk_overruns_block :
  ∃ p l w,
    MemoryPool_ctor 12 4 10 = Some p ∧
    allocate_n 10 (fresh_world p [16]) = Ret l w ∧
    l = [36; 48; 60; 72; 84; 96; 108; 120; 132; 144] ∧
    log w = [EvNew 138 16; EvWrite 16] ∧
    chunk_size_ (pool w) = 12 ∧
    chunk_within_block (log w) (chunk_size_ (pool w)) 132 = true ∧
    chunk_within_block (log w) (chunk_size_ (pool w)) 144 = false.
Proof.
  eexists _, _, _. split; [reflexivity|].
  split; [vm_compute; reflexivity|]. repeat split.
Qed.

(** ** Block growth *)

Lemma new_count_app l l' : new_count (l ++ l') = (new_count l + new_count l')%nat.
Proof. unfold new_count. by rewrite List.filter_app, length_app. Qed.

Lemma new_count_with_block b rest w :
  new_count (log (with_block b rest w)) = S (new_count (log w)).
Proof. simpl. rewrite !new_count_app. cbn. lia. Qed.

(** With [j] chunks left before the cursor reaches the limit and an empty
    free list, the next [j] calls obtain no block and the one after them
    does. *)
Lemma allocating_calls_bump_run (j : nat) : ∀ (i : nat) w b rest,
  free_chunks_ (pool w) = nullptr →
  0 < chunk_size_ (pool w) →
  sys w = b :: rest →
  0 ≤ current_chunk_ (pool w) →
  last_chunk_ (pool w)
    = current_chunk_ (pool w) + Z.of_nat j * chunk_size_ (pool w) →
  last_chunk_ (pool w) < size_modulus →
  allocating_calls i (S j) w = Some [(i + j)%nat].
Proof.
  induction j as [|j IH]; intros i w b rest Hfree Hcs Hsys Hcur Hlast Hmax.
  - cbn [allocating_calls].
    rewrite (allocate_grow b rest) by (try done; lia).
    unfold bumped at 1. cbn [log]. rewrite new_count_with_block.
    destruct (Nat.eqb_spec (S (new_count (log w))) (new_count (log w)));
      [lia|].
    by rewrite Nat.add_0_r.
  - change (allocating_calls i (S (S j)) w)
      with (match allocate w with
            | Ret _ w' =>
                match allocating_calls (S i) (S j) w' with
                | Some rest0 =>
                    Some (if Nat.eqb (new_count (log w')) (new_count (log w))
                          then rest0 else i :: rest0)
                | None => None
                end
            | _ => None
            end).
    rewrite allocate_bump by (try done; nia).
    assert (Hw : wrap (current_chunk_ (pool w) + chunk_size_ (pool w))
                 = current_chunk_ (pool w) + chunk_size_ (pool w))
      by (apply wrap_small; nia).
    rewrite (IH (S i) (bumped w) b rest); cbn [bumped pool log sys
      set_current_chunk_ free_chunks_ chunk_size_ current_chunk_ last_chunk_];
      try done; try (rewrite Hw; nia).
    rewrite Nat.eqb_refl. f_equal. f_equal. lia.
Qed.

(** C6 (as amended): on a new pool with at least one chunk per block and
    a non-zero chunk size, [chunks_per_block_ + 1] consecutive calls of
    [allocate] obtain exactly two blocks, one in the first call (the
    constructor obtains none) and one in call [chunks_per_block_ + 1]. *)
Theorem C6_block_growth chunk_size chunk_alignment n p b1 b2 rest :
  MemoryPool_ctor chunk_size chunk_alignment n = Some p →
  0 < chunk_size_ p →
  1 ≤ n →
  block_addressable (chunk_size_ p) n b1 →
  allocating_calls 1 (Z.to_nat (n + 1)) (fresh_world p (b1 :: b2 :: rest))
  = Some [1%nat; Z.to_nat (n + 1)].
Proof.
  intros Hctor Hcs Hn [Hb1 Hfit].
  assert (Hp : chunks_per_block_ p = n ∧ current_chunk_ p = nullptr
               ∧ last_chunk_ p = nullptr ∧ free_chunks_ p = nullptr).
  { unfold MemoryPool_ctor in Hctor.
    destruct (getAssignment _ _); [|done]. by inversion Hctor. }
  destruct Hp as (Hnp & Hcur & Hlast & Hfree).
  replace (Z.to_nat (n + 1)) with (S (S (Z.to_nat (n - 1)))) by lia.
  set (j := Z.to_nat (n - 1)).
  change (allocating_calls 1 (S (S j)) (fresh_world p (b1 :: b2 :: rest)))
    with (match allocate (fresh_world p (b1 :: b2 :: rest)) with
          | Ret _ w' =>
              match allocating_calls 2 (S j) w' with
              | Some rest0 =>
                  Some (if Nat.eqb (new_count (log w'))
                             (new_count (log (fresh_world p (b1 :: b2 :: rest))))
                        then rest0 else 1%nat :: rest0)
              | None => None
              end
          | _ => None
          end).
  rewrite (allocate_grow b1 (b2 :: rest)); cbn [fresh_world pool sys];
    try done; try lia.
  unfold extent in Hfit.
  destruct (first_chunk_of_spec (chunk_size_ p) b1) as (_ & Hc0 & _);
    [lia | lia | unfold ptr_size in *; nia |].
  unfold ptr_size in *.
  assert (Hw1 : wrap (first_chunk_of (chunk_size_ p) b1 + chunk_size_ p)
                = first_chunk_of (chunk_size_ p) b1 + chunk_size_ p)
    by (apply wrap_small; nia).
  assert (Hw2 : wrap (first_chunk_of (chunk_size_ p) b1 + wrap (n * chunk_size_ p))
                = first_chunk_of (chunk_size_ p) b1 + n * chunk_size_ p).
  { rewrite (wrap_small (n * _)) by nia. apply wrap_small. nia. }
  rewrite (allocating_calls_bump_run j 2 _ b2 rest);
    cbn [bumped with_block pool log sys set_current_chunk_ set_last_chunk_
         set_current_block_ free_chunks_ chunk_size_ current_chunk_
         last_chunk_ chunks_per_block_ fresh_world];
    try done; rewrite ?Hnp, ?Hw1, ?Hw2; subst j; nia.
Qed.

Lemma C6_block_growth_witness :
  allocating_calls 1 (Z.to_nat (10 + 1))
    (fresh_world (mkMemoryPool 12 138 10 0 0 0 0) [16; 1024])
  = Some [1%nat; Z.to_nat (10 + 1)].
Proof.
  apply (C6_block_growth 12 4 10 (mkMemoryPool 12 138 10 0 0 0 0) 16 1024 []).
  - reflexivity.
  - reflexivity.
  - lia.
  - split; reflexivity.
Defined.

(** C6 (as stated): a new pool for which the first of the
    [chunks_per_block_ + 1] calls obtains a block too. *)
Lemma C6_first_call_obtains_block :
  ¬ one_block_on_last_call (mkMemoryPool 12 138 10 0 0 0 0) [16; 1024].
Proof. unfold one_block_on_last_call. vm_compute. discriminate. Qed.

(** ** Linked lists in memory *)

Lemma linked_functional (h : gmap Z Z) : ∀ l l' head,
  linked h head l → linked h head l' → l = l'.
Proof.
  induction l as [|a l IH]; intros [|a' l'] head Hl Hl'; simpl in *.
  - done.
  - destruct Hl' as (-> & Hr & _). unfold nullptr in Hl. lia.
  - destruct Hl as (-> & Hr & _). unfold nullptr in Hl'. lia.
  - destruct Hl as (-> & _ & Hl), Hl' as (<- & _ & Hl').
    f_equal. by apply (IH l' (load_ptr h a)).
Qed.

Lemma linked_suffix (h : gmap Z Z) : ∀ l1 l2 head,
  linked h head (l1 ++ l2) → ∃ head', linked h head' l2.
Proof.
  induction l1 as [|a l1 IH]; intros l2 head Hl; simpl in *.
  - by exists head.
  - destruct Hl as (_ & _ & Hl). by apply IH in Hl.
Qed.

(** A list that ends in null has no cycle: no node occurs twice. *)
Lemma linked_NoDup (h : gmap Z Z) : ∀ l head, linked h head l → NoDup l.
Proof.
  induction l as [|a l IH]; intros head Hl; [constructor|].
  pose proof Hl as Hall. destruct Hl as (-> & Hr & Hl).
  constructor; [|by apply IH in Hl].
  intros Hin. apply list_elem_of_split in Hin as (l1 & l2 & ->).
  destruct (linked_suffix h l1 (a :: l2) _ Hl) as (head' & Hsuf).
  assert (head' = a) as -> by (by destruct Hsuf).
  pose proof (linked_functional h _ _ _ Hall Hsuf) as Heq.
  apply (f_equal length) in Heq. rewrite !length_cons, length_app in Heq.
  simpl in Heq. lia.
Qed.

(** Writing a word that overlaps no node's link leaves the list alone. *)
Lemma linked_store_ptr (h : gmap Z Z) ptr v : ∀ l head,
  Forall (word_disjoint ptr) l →
  linked h head l → linked (store_ptr h ptr v) head l.
Proof.
  induction l as [|a l IH]; intros head Hd Hl; simpl in *; [done|].
  apply Forall_cons in Hd as [Ha Hd]. destruct Hl as (-> & Hr & Hl).
  split; [done|]. split; [done|].
  rewrite load_ptr_store_ptr_ne by (destruct Ha; [right|left]; done).
  by apply IH.
Qed.

(** Writing the old head into a fresh node and taking the node as the
    head puts the node in front of the list. *)
Lemma linked_push (h : gmap Z Z) ptr head l :
  0 < ptr < size_modulus → 0 ≤ head < size_modulus →
  Forall (word_disjoint ptr) l →
  linked h head l → linked (store_ptr h ptr head) ptr (ptr :: l).
Proof.
  intros Hptr Hhead Hd Hl. simpl. split; [done|]. split; [done|].
  rewrite load_ptr_store_ptr_eq by done. by apply linked_store_ptr.
Qed.

Lemma linked_head_range (h : gmap Z Z) head l :
  linked h head l → 0 ≤ head < size_modulus.
Proof.
  destruct l; simpl.
  - intros ->. by vm_compute.
  - intros (-> & Hr & _). lia.
Qed.

(** ** The free list: [allocate] takes from it, [deallocate] adds to it *)

(** X23: when the free list is not empty, [allocate] returns its head and
    makes the head's link the new head (so a free list [a :: l] becomes
    [l]); it obtains no block, leaves the cursor, the limit and the block list where
    they are, and writes nothing to memory. Its only memory access is the
    read of [free_chunks_->next]; in a pool whose chunks are no smaller than
    a pointer that word lies inside the chunk returned, and what the call
    returns and leaves behind depends on no byte outside that chunk. *)
Theorem X23_pop_stays_within_chunk w :
  free_chunks_ (pool w) ≠ nullptr →
  ptr_size ≤ chunk_size_ (pool w) →
  ∃ w',
    allocate w = Ret (free_chunks_ (pool w)) w' ∧
    free_chunks_ (pool w') = load_ptr (heap w) (free_chunks_ (pool w)) ∧
    (∀ l, free_list w l →
          ∃ l', l = free_chunks_ (pool w) :: l' ∧ free_list w' l') ∧
    sys w' = sys w ∧
    blocks_obtained (log w') = blocks_obtained (log w) ∧
    current_block_ (pool w') = current_block_ (pool w) ∧
    current_chunk_ (pool w') = current_chunk_ (pool w) ∧
    last_chunk_ (pool w') = last_chunk_ (pool w) ∧
    heap w' = heap w ∧
    log w' = log w ++ [EvRead (free_chunks_ (pool w))] ∧
    link_within_chunk (chunk_size_ (pool w)) (free_chunks_ (pool w))
                      (free_chunks_ (pool w)) = true ∧
    ∀ h',
      (∀ x, free_chunks_ (pool w) ≤ x
            < free_chunks_ (pool w) + chunk_size_ (pool w) →
            h' !! x = heap w !! x) →
      allocate (mkWorld (pool w) h' (sys w) (log w))
      = Ret (free_chunks_ (pool w)) (mkWorld (pool w') h' (sys w') (log w')).
Proof.
  intros Hne Hcs. exists (popped w). rewrite allocate_pop by done.
  do 2 (split; [done|]).
  split; [|split; [done|split; [|do 5 (split; [done|]); split]]].
  - intros [|a l'] Hl; simpl in Hl; [done|].
    destruct Hl as (Ha & _ & Hl). exists l'. split; [by rewrite Ha|].
    unfold free_list. cbn [popped pool heap set_free_chunks_ free_chunks_].
    by rewrite Ha.
  - cbn [popped log]. unfold blocks_obtained. rewrite omap_app. simpl.
    by rewrite app_nil_r.
  - unfold link_within_chunk. apply andb_true_iff.
    split; apply Z.leb_le; lia.
  - intros h' Hagree. rewrite allocate_pop by done.
    unfold popped. cbn [pool heap sys log]. do 3 f_equal.
    unfold load_ptr. apply load_le_ext. intros x Hx. unfold byte_at.
    rewrite Hagree; [done | unfold ptr_size in *; lia].
Qed.

Lemma X23_pop_stays_within_chunk_witness :
  ∃ w',
    allocate (mkWorld (mkMemoryPool 12 138 10 16 72 156 60) ∅ [] [])
      = Ret 60 w' ∧
    free_chunks_ (pool w') = 0 ∧
    heap w' = ∅ ∧
    log w' = [EvRead 60] ∧
    link_within_chunk 12 60 60 = true.
Proof.
  destruct (X23_pop_stays_within_chunk
              (mkWorld (mkMemoryPool 12 138 10 16 72 156 60) ∅ [] []))
    as (w' & Hret & Hfree & _ & _ & _ & _ & _ & _ & Hheap & Hlog & Hin & _).
  - simpl. unfold nullptr. lia.
  - by vm_compute.
  - exists w'. repeat split; assumption.
Defined.

(** C7 (fails): a pool made for chunks of 8 bytes aligned to 5 gets chunks
    of 6 bytes. With the chunks at 30, 36, 42 and 48 allocated and the one
    at 42 freed, [allocate] takes 42 off the free list by reading the word
    at 42, whose last two bytes, 48 and 49, are the first bytes of the chunk
    at 48, which the caller holds: after the caller has written 7 to byte
    48 the same call, on a memory that is the same throughout the chunk at
    42, leaves another head in the free list. *)
Theorem C7_pop_reads_beyond_chunk :
  ∃ p w w1 w2,
    MemoryPool_ctor 8 5 10 = Some p ∧
    chunk_size_ p = 6 ∧
    (a1 <- allocate ;;
     a2 <- allocate ;;
     a3 <- allocate ;;
     a4 <- allocate ;;
     deallocate a3 ;;;
     ret [a1; a2; a3; a4]) (fresh_world p [16]) = Ret [30; 36; 42; 48] w ∧
    reachable p [16] w [48; 36; 30] ∧
    free_chunks_ (pool w) = 42 ∧
    link_within_chunk (chunk_size_ p) 42 42 = false ∧
    let written :=
      mkWorld (pool w) (<[48 := 7]> (heap w)) (sys w) (log w) in
    reachable p [16] written [48; 36; 30] ∧
    (∀ x, 42 ≤ x < 42 + chunk_size_ p → heap written !! x = heap w !! x) ∧
    allocate w = Ret 42 w1 ∧
    free_chunks_ (pool w1) = 0 ∧
    log w1 = log w ++ [EvRead 42] ∧
    allocate written = Ret 42 w2 ∧
    free_chunks_ (pool w2) = 1970324836974592.
Proof.
  eexists _, _, _, _. split; [reflexivity|]. split; [reflexivity|].
  split; [vm_compute; reflexivity|].
  assert (Hr : reachable (mkMemoryPool 6 78 10 0 0 0 0) [16]
                 (mkWorld (mkMemoryPool 6 78 10 16 54 90 42)
                          (store_ptr (store_ptr ∅ 16 0) 42 0) []
                          [EvNew 78 16; EvWrite 16; EvWrite 42])
                 [48; 36; 30]).
  { eapply (reachable_step _ _ _ [48; 42; 36; 30] _ [48; 36; 30]).
    - eapply (reachable_step _ _ _ [42; 36; 30] _ [48; 42; 36; 30]).
      + eapply (reachable_step _ _ _ [36; 30] _ [42; 36; 30]).
        * eapply (reachable_step _ _ _ [30] _ [36; 30]).
          -- eapply (reachable_step _ _ _ [] _ [30]);
               [apply reachable_fresh|].
             apply step_allocate. vm_compute. reflexivity.
          -- apply step_allocate. vm_compute. reflexivity.
        * apply step_allocate. vm_compute. reflexivity.
      + apply step_allocate. vm_compute. reflexivity.
    - apply (step_deallocate _ _ [48] 42 [36; 30]); [reflexivity|].
      vm_compute. reflexivity. }
  split; [exact Hr|]. split; [reflexivity|]. split; [reflexivity|].
  cbv zeta. split; [|split; [|split; [|split; [|split; [|split]]]]].
  - eapply reachable_step; [exact Hr|].
    apply (step_write _ _ 48 48 7); [by left | simpl; lia].
  - intros x Hx. change (chunk_size_ _) with 6 in Hx. cbn [heap].
    apply lookup_insert_ne. lia.
  - vm_compute. reflexivity.
  - reflexivity.
  - reflexivity.
  - vm_compute. reflexivity.
  - reflexivity.
Qed.




(** ** Typed objects: construction and destruction *)

Section TypedMemoryPoolProperties.
Context {Args : Type} {T : CxxType Args}.

Lemma make_constructed args w mem w1 h' :
  allocate w = Ret mem w1 →
  constructor_T args mem (heap w1) = (h', None) →
  make args w
  = Ret mem (mkWorld (pool w1) h' (sys w1) (log w1 ++ [EvConstruct mem])).
Proof.
  intros Halloc Hctor. unfold make, bind at 1. rewrite Halloc.
  unfold bind, try_catch_std, placement_new. by rewrite Hctor.
Qed.

(** A constructor that throws an exception derived from [std::exception]
    makes [make] return null with the chunk at the head of the free
    list, the old head written into it. *)
Lemma make_std_exception args w mem w1 h' e :
  allocate w = Ret mem w1 →
  constructor_T args mem (heap w1) = (h', Some e) →
  is_std_exception e = true →
  mem ≠ nullptr →
  make args w
  = Ret nullptr
      (pushed mem
         (mkWorld (pool w1) h' (sys w1) (log w1 ++ [EvConstruct mem]))).
Proof.
  intros Halloc Hctor He Hmem. unfold make, bind at 1. rewrite Halloc.
  unfold bind at 1, try_catch_std, placement_new. rewrite Hctor, He.
  unfold bind at 1. by rewrite deallocate_push.
Qed.

(** An exception of another type leaves [make] with the chunk neither
    returned to the caller nor put on the free list. *)
Lemma make_non_std_exception args w mem w1 h' e :
  allocate w = Ret mem w1 →
  constructor_T args mem (heap w1) = (h', Some e) →
  is_std_exception e = false →
  make args w
  = Throw e (mkWorld (pool w1) h' (sys w1) (log w1 ++ [EvConstruct mem])).
Proof.
  intros Halloc Hctor He. unfold make, bind at 1. rewrite Halloc.
  unfold bind, try_catch_std, placement_new. by rewrite Hctor, He.
Qed.

(** X17: after a failed [make] that reclaimed its chunk, the next [make]
    whose constructor returns gets that chunk. *)
Lemma make_after_std_exception args args' w mem w1 h' h'' e :
  allocate w = Ret mem w1 →
  constructor_T args mem (heap w1) = (h', Some e) →
  is_std_exception e = true →
  mem ≠ nullptr →
  constructor_T args' mem (store_ptr h' mem (free_chunks_ (pool w1)))
    = (h'', None) →
  ∃ w2 w3,
    make args w = Ret nullptr w2 ∧
    free_chunks_ (pool w2) = mem ∧
    make args' w2 = Ret mem w3 ∧
    blocks_obtained (log w3) = blocks_obtained (log w1) ∧
    current_chunk_ (pool w3) = current_chunk_ (pool w1).
Proof.
  intros Halloc Hctor He Hmem Hctor'.
  eexists _, _. split; [by eapply make_std_exception|].
  split; [done|]. split.
  - eapply make_constructed.
    + rewrite allocate_pop by done. reflexivity.
    + exact Hctor'.
  - split; [|done]. cbn [log popped pushed].
    unfold blocks_obtained. rewrite !omap_app. simpl.
    by rewrite !app_nil_r.
Qed.

Lemma destroy_null w : destroy nullptr w = Ret tt w.
Proof. reflexivity. Qed.

(** A destructor that returns, or throws an exception derived from
    [std::exception], is followed by the return of the chunk. *)
Lemma destroy_reclaims ptr w h' r :
  ptr ≠ nullptr →
  destructor_T ptr (heap w) = (h', r) →
  from_option is_std_exception true r = true →
  destroy ptr w
  = Ret tt (pushed ptr
              (mkWorld (pool w) h' (sys w) (log w ++ [EvDestruct ptr]))).
Proof.
  intros Hne Hdtor Hr. unfold destroy.
  destruct (Z.eqb_spec ptr nullptr) as [|_]; [done|]. cbn [negb].
  unfold bind at 1, try_catch_std, call_destructor. rewrite Hdtor.
  destruct r as [e|]; simpl in Hr.
  - rewrite Hr. unfold ret. by rewrite deallocate_push.
  - by rewrite deallocate_push.
Qed.

(** An exception of another type leaves [destroy] before the chunk is
    returned. *)
Lemma destroy_non_std_exception ptr w h' e :
  ptr ≠ nullptr →
  destructor_T ptr (heap w) = (h', Some e) →
  is_std_exception e = false →
  destroy ptr w
  = Throw e (mkWorld (pool w) h' (sys w) (log w ++ [EvDestruct ptr])).
Proof.
  intros Hne Hdtor He. unfold destroy.
  destruct (Z.eqb_spec ptr nullptr) as [|_]; [done|]. cbn [negb].
  unfold bind, try_catch_std, call_destructor. by rewrite Hdtor, He.
Qed.
End TypedMemoryPoolProperties.

(** C4 (fails): a constructor that throws an object of a type not derived
    from [std::exception] makes [make] exit by that exception with the
    chunk (at 32) still taken: the free list is empty, nothing was written
    to the chunk, and the next [make] gets the chunk after it. *)
Theorem C4_make_leaks_on_non_std_exception :
  ∃ p w1 w2,
    TypedMemoryPool_ctor (H := Thrower) 10 = Some p ∧
    make (H := Thrower) (Some non_std_exception, None) (fresh_world p [16])
      = Throw non_std_exception w1 ∧
    log w1 = [EvNew 98 16; EvWrite 16; EvConstruct 32] ∧
    free_chunks_ (pool w1) = nullptr ∧
    make (H := Thrower) (None, None) w1 = Ret 40 w2.
Proof.
  eexists _, _, _. split; [reflexivity|].
  split; [vm_compute; reflexivity|].
  split; [reflexivity|]. split; [reflexivity|]. vm_compute. reflexivity.
Qed.

(** C5 (fails): a destructor that throws an object of a type not derived
    from [std::exception] makes [destroy] exit by that exception, and the
    chunk (at 32) is not put on the free list. *)
Theorem C5_destroy_propagates_non_std_exception :
  ∃ p w1 w2,
    TypedMemoryPool_ctor (H := Thrower) 10 = Some p ∧
    make (H := Thrower) (None, Some non_std_exception) (fresh_world p [16])
      = Ret 32 w1 ∧
    destroy (H := Thrower) 32 w1 = Throw non_std_exception w2 ∧
    log w2 = log w1 ++ [EvDestruct 32] ∧
    free_chunks_ (pool w2) = nullptr.
Proof.
  eexists _, _, _. split; [reflexivity|].
  split; [vm_compute; reflexivity|].
  split; [vm_compute; reflexivity|]. split; reflexivity.
Qed.

(** ** What the calls keep *)

Lemma linked_nil_inv (h : gmap Z Z) l : linked h nullptr l → l = [].
Proof.
  destruct l as [|a l]; [done|]. simpl. unfold nullptr. intros (<- & ? & _).
  lia.
Qed.

(** Writing a byte that lies in no node's link leaves the list alone. *)
Lemma linked_insert_byte (h : gmap Z Z) x v : ∀ l head,
  Forall (λ a, x < a ∨ a + ptr_size ≤ x) l →
  linked h head l → linked (<[x := v]> h) head l.
Proof.
  induction l as [|a l IH]; intros head Hd Hl; simpl in *; [done|].
  apply Forall_cons in Hd as [Ha Hd]. destruct Hl as (-> & Hr & Hl).
  split; [done|]. split; [done|].
  replace (load_ptr (<[x := v]> h) a) with (load_ptr h a); [by apply IH|].
  unfold load_ptr. apply load_le_ext. intros y Hy. symmetry.
  apply byte_at_insert_ne. unfold ptr_size in Ha. lia.
Qed.

Lemma blocks_obtained_app l l' :
  blocks_obtained (l ++ l') = blocks_obtained l ++ blocks_obtained l'.
Proof. apply omap_app. Qed.

Lemma blocks_released_app l l' :
  blocks_released (l ++ l') = blocks_released l ++ blocks_released l'.
Proof. apply omap_app. Qed.

Section Blocks.
Variables cs n : Z.
Hypothesis Hcs : ptr_size ≤ cs.
Hypothesis Hn : 1 ≤ n.

Lemma extent_ge : ptr_size + cs ≤ extent cs n.
Proof. unfold extent, ptr_size in *. nia. Qed.

Lemma apart_word_disjoint b b' : apart cs n b b' → word_disjoint b b'.
Proof. pose proof extent_ge. unfold apart, word_disjoint, ptr_size in *. lia. Qed.

Lemma apart_ne b b' : apart cs n b b' → b ≠ b'.
Proof. pose proof extent_ge. unfold apart, ptr_size in *. lia. Qed.

(** The blocks obtained so far [bs] (newest first) followed by those still
    to come [s] are the addresses assumed [spaced]. *)
Lemma obtained_addressable bs s b :
  spaced cs n (reverse bs ++ s) → b ∈ bs → block_addressable cs n b.
Proof.
  intros Hsp Hb. eapply spaced_addressable; [exact Hsp|].
  apply elem_of_app. left. by apply elem_of_reverse.
Qed.

Lemma obtained_pair bs s b b' :
  spaced cs n (reverse bs ++ s) → b ∈ bs → b' ∈ bs →
  b = b' ∨ apart cs n b b'.
Proof.
  intros Hsp Hb Hb'. eapply spaced_pair; [exact Hsp| |];
    apply elem_of_app; left; by apply elem_of_reverse.
Qed.

Lemma obtained_head_apart b older s b' :
  spaced cs n (reverse (b :: older) ++ s) → b' ∈ older → apart cs n b b'.
Proof.
  intros Hsp Hb'. apply spaced_app in Hsp as (Hsp & _ & _).
  apply spaced_reverse in Hsp. rewrite reverse_involutive in Hsp.
  destruct Hsp as (_ & Hap & _). rewrite Forall_forall in Hap. by apply Hap.
Qed.

Lemma coming_apart bs b rest b' :
  spaced cs n (reverse bs ++ b :: rest) → b' ∈ bs →
  apart cs n b b'.
Proof.
  intros Hsp Hb'. apply spaced_app in Hsp as (_ & _ & Hc).
  apply apart_sym, Hc; [by apply elem_of_reverse | by left].
Qed.

Lemma coming_addressable bs b rest :
  spaced cs n (reverse bs ++ b :: rest) → block_addressable cs n b.
Proof. intros Hsp. apply spaced_app in Hsp as (_ & Hb & _). by destruct Hb. Qed.

Lemma issued_is_chunk cursor bs a :
  issued cs n cursor bs a → is_chunk cs n bs a.
Proof.
  destruct bs as [|b older]; simpl; [done|].
  intros [(i & Hi & -> & _) | (b' & i & Hb' & Hi & ->)].
  - exists b, i. split; [by left | done].
  - exists b', i. split; [by right | done].
Qed.

Lemma is_chunk_range bs s a :
  spaced cs n (reverse bs ++ s) → is_chunk cs n bs a →
  0 < a ∧ a + cs < size_modulus.
Proof.
  intros Hsp (b & i & Hb & Hi & ->).
  pose proof (obtained_addressable _ _ _ Hsp Hb) as Hab.
  destruct (chunk_at_bounds cs n Hcs Hn b i Hab) as (H1 & _ & H2 & _); [lia|].
  destruct Hab as [? ?]. unfold ptr_size in *. lia.
Qed.

(** Two chunks at different addresses do not overlap. *)
Lemma is_chunk_separate bs s a a' :
  spaced cs n (reverse bs ++ s) →
  is_chunk cs n bs a → is_chunk cs n bs a' →
  a = a' ∨ a + cs ≤ a' ∨ a' + cs ≤ a.
Proof.
  intros Hsp (b & i & Hb & Hi & ->) (b' & i' & Hb' & Hi' & ->).
  destruct (chunks_separate cs n Hcs Hn b b' i i') as [[-> ->]|Hsep];
    eauto using obtained_addressable, obtained_pair.
Qed.

(** No chunk overlaps the link of a block. *)
Lemma is_chunk_link_separate bs s a b' :
  spaced cs n (reverse bs ++ s) →
  is_chunk cs n bs a → b' ∈ bs →
  b' + ptr_size ≤ a ∨ a + cs ≤ b'.
Proof.
  intros Hsp (b & i & Hb & Hi & ->) Hb'.
  apply (chunk_link_separate cs n Hcs Hn);
    eauto using obtained_addressable, obtained_pair.
Qed.

(** A chunk of the newest block is not a chunk of an older one. *)
Lemma head_chunk_not_older b older s i :
  spaced cs n (reverse (b :: older) ++ s) → 0 ≤ i < n →
  ¬ is_chunk cs n older (chunk_at cs b i).
Proof.
  intros Hsp Hi (b' & i' & Hb' & Hi' & Heq).
  pose proof (obtained_head_apart _ _ _ _ Hsp Hb') as Hap.
  destruct (chunks_separate cs n Hcs Hn b b' i i') as [[-> _]|Hsep];
    try done.
  - eapply obtained_addressable; [exact Hsp | by left].
  - eapply obtained_addressable; [exact Hsp | by right].
  - by right.
  - by apply apart_ne in Hap.
  - unfold ptr_size in *. lia.
Qed.

(** Once the cursor is at the limit, every chunk has been issued. *)
Lemma issued_all cursor bs a p :
  cursor_ok cs n p bs → cursor = current_chunk_ p →
  last_chunk_ p ≤ current_chunk_ p →
  is_chunk cs n bs a → issued cs n cursor bs a.
Proof.
  destruct bs as [|b older]; simpl.
  - by intros _ _ _ (b & i & ?%elem_of_nil & _).
  - intros (_ & Hlast & k & Hk & Hcur) -> Hle (b' & i & Hb' & Hi & ->).
    apply elem_of_cons in Hb' as [->|Hb'].
    + left. exists i. split; [done|]. split; [done|].
      rewrite Hlast in Hle. unfold chunk_at, ptr_size in *. nia.
    + right. by exists b', i.
Qed.

End Blocks.

Section Invariant.
Variable p0 : MemoryPool.
Variable addrs : list Z.
Hypothesis Hcs : ptr_size ≤ chunk_size_ p0.
Hypothesis Hn : 1 ≤ chunks_per_block_ p0.
Hypothesis Hfresh : is_fresh p0.
Hypothesis Hspaced : spaced (chunk_size_ p0) (chunks_per_block_ p0) addrs.

Local Abbreviation cs := (chunk_size_ p0).
Local Abbreviation n := (chunks_per_block_ p0).
Local Abbreviation inv := (pool_inv p0 addrs).

Lemma inv_fresh : inv (fresh_world p0 addrs) [] [] [].
Proof.
  destruct Hfresh as (Hb & Hc & Hl & Hf).
  constructor; try done.
  - simpl. constructor.
  - intros a. simpl. split; [by intros ?%elem_of_nil | done].
Qed.

Lemma inv_spaced w out bs fl :
  inv w out bs fl → spaced cs n (reverse bs ++ sys w).
Proof. intros Hinv. rewrite <- (inv_tape _ _ _ _ _ _ Hinv). exact Hspaced. Qed.

(** Taking the head off the free list. *)
Lemma inv_pop w out bs a fl :
  inv w out bs (a :: fl) → inv (popped w) (a :: out) bs fl.
Proof.
  intros Hinv. pose proof (inv_spaced _ _ _ _ Hinv) as Hsp.
  destruct Hinv as [H1 H2 H3 H4 H5 H6 H7 H8 H9 H10 H11].
  destruct H8 as (Ha & Hr & Hfl).
  assert (Hp : (a :: out) ++ fl ≡ₚ out ++ a :: fl)
    by apply Permutation_middle.
  constructor; try done.
  - cbn [popped log]. rewrite blocks_obtained_app. simpl.
    by rewrite app_nil_r.
  - cbn [popped log]. rewrite blocks_released_app. simpl.
    by rewrite app_nil_r.
  - unfold free_list. cbn [popped pool heap set_free_chunks_ free_chunks_].
    by rewrite Ha.
  - by rewrite Hp.
  - intros x. rewrite <- H10. cbn [popped pool set_free_chunks_ current_chunk_].
    by rewrite Hp.
Qed.

(** Moving the cursor on by one chunk. *)
Lemma inv_bump w out bs fl :
  inv w out bs fl →
  free_chunks_ (pool w) = nullptr →
  current_chunk_ (pool w) < last_chunk_ (pool w) →
  inv (bumped w) (current_chunk_ (pool w) :: out) bs fl.
Proof.
  intros Hinv Hfree Hlt. pose proof (inv_spaced _ _ _ _ Hinv) as Hsp.
  destruct Hinv as [H1 H2 H3 H4 H5 H6 H7 H8 H9 H10 H11].
  assert (fl = []) as ->.
  { unfold free_list in H8. rewrite Hfree in H8. by eapply linked_nil_inv. }
  destruct bs as [|b older].
  { destruct H11 as (_ & Hc & Hl). rewrite Hc, Hl in Hlt. lia. }
  destruct H11 as (Hb & Hl & k & Hk & Hc).
  assert (Hkn : k < n).
  { rewrite Hl, Hc in Hlt. unfold chunk_at in Hlt. unfold ptr_size in *. nia. }
  assert (Hab : block_addressable cs n b).
  { eapply obtained_addressable; [exact Hsp | by left]. }
  destruct (chunk_at_bounds cs n Hcs Hn b k Hab) as (Hk1 & _ & Hk2 & _);
    [lia|]. specialize (Hk2 Hkn).
  assert (Hnext : wrap (current_chunk_ (pool w) + chunk_size_ (pool w))
                  = chunk_at cs b (k + 1)).
  { rewrite H1, Hc. destruct Hab as [? ?]. unfold ptr_size in *.
    rewrite wrap_small by lia. unfold chunk_at. lia. }
  assert (Hnew : ¬ issued cs n (current_chunk_ (pool w)) (b :: older)
                     (current_chunk_ (pool w))).
  { intros [(i & _ & _ & Hi) | Hold]; [lia|].
    rewrite Hc in Hold. revert Hold.
    apply (head_chunk_not_older cs n Hcs Hn b older (sys w) k Hsp). lia. }
  constructor; try done.
  - rewrite app_nil_r in *. constructor; [|done].
    intros Hin. by apply Hnew, H10.
  - intros x. cbn [bumped pool set_current_chunk_ current_chunk_].
    rewrite Hnext. rewrite app_nil_r in *. rewrite elem_of_cons, H10.
    cbn [issued]. split.
    + intros [->|[(i & Hi & -> & Hlti)|Hold]]; [| |by right].
      * left. exists k. split; [lia|]. split; [done|].
        unfold chunk_at, ptr_size in *. lia.
      * left. exists i. split; [done|]. split; [done|].
        rewrite Hc in Hlti. unfold chunk_at, ptr_size in *. nia.
    + intros [(i & Hi & -> & Hlti)|Hold]; [|by right; right].
      destruct (Z.eq_dec i k) as [->|Hne]; [by left|].
      right. left. exists i. split; [done|]. split; [done|].
      rewrite Hc. unfold chunk_at, ptr_size in *. nia.
  - cbn [cursor_ok bumped pool set_current_chunk_ current_chunk_
         current_block_ last_chunk_]. split; [done|]. split; [done|].
    exists (k + 1). split; [lia | done].
Qed.

(** Obtaining a block and issuing its first chunk. *)
Lemma inv_grow w out bs fl b rest :
  inv w out bs fl →
  free_chunks_ (pool w) = nullptr →
  last_chunk_ (pool w) ≤ current_chunk_ (pool w) →
  sys w = b :: rest →
  inv (bumped (with_block b rest w))
      (first_chunk_of (chunk_size_ (pool w)) b :: out) (b :: bs) fl.
Proof.
  intros Hinv Hfree Hle Hsys. pose proof (inv_spaced _ _ _ _ Hinv) as Hsp.
  rewrite Hsys in Hsp.
  destruct Hinv as [H1 H2 H3 H4 H5 H6 H7 H8 H9 H10 H11].
  assert (fl = []) as ->.
  { unfold free_list in H8. rewrite Hfree in H8. by eapply linked_nil_inv. }
  rewrite app_nil_r in *.
  pose proof (coming_addressable _ _ _ _ _ Hsp) as Hab.
  assert (Hsp' : spaced cs n (reverse (b :: bs) ++ rest)).
  { by rewrite reverse_cons, <- app_assoc. }
  destruct (chunk_at_bounds cs n Hcs Hn b 0 Hab) as (Hc1 & _ & Hc2 & Hc3);
    [lia|]. specialize (Hc2 ltac:(lia)).
  rewrite Z.mul_0_l, Z.add_0_r in Hc3.
  destruct (chunk_at_bounds cs n Hcs Hn b n Hab) as (_ & Hl1 & _ & Hl2);
    [lia|].
  assert (Hnext : wrap (first_chunk_of cs b + cs) = chunk_at cs b 1).
  { destruct Hab as [? ?]. unfold ptr_size in *. rewrite wrap_small by lia.
    unfold chunk_at. lia. }
  assert (Hlast : wrap (first_chunk_of cs b + wrap (n * cs)) = chunk_at cs b n).
  { destruct Hab as [? Hfit]. unfold extent, ptr_size in *.
    rewrite (wrap_small (n * cs)) by nia. rewrite wrap_small by lia. lia. }
  assert (Hold : ∀ x, x ∈ out → is_chunk cs n bs x).
  { intros x Hx. eapply issued_is_chunk. by apply H10. }
  rewrite H1.
  constructor; cbn [bumped with_block pool heap sys log set_current_chunk_
    set_last_chunk_ set_current_block_ chunk_size_ chunks_per_block_
    block_size_ current_block_ current_chunk_ last_chunk_ free_chunks_];
    try done.
  - rewrite reverse_cons, <- app_assoc. simpl. by rewrite <- Hsys.
  - rewrite !blocks_obtained_app, H5, reverse_cons. simpl.
    by rewrite app_nil_r.
  - rewrite !blocks_released_app, H6. done.
  - unfold block_list.
    cbn [pool heap set_current_chunk_ set_last_chunk_ set_current_block_
         current_block_].
    destruct Hab as [? ?]. pose proof (extent_ge cs n Hcs Hn).
    unfold ptr_size in *.
    apply linked_push; [lia | by eapply linked_head_range | | done].
    apply Forall_forall. intros b' Hb'.
    apply (apart_word_disjoint cs n Hcs Hn).
    by eapply coming_apart.
  - rewrite app_nil_r. constructor; [|done].
    intros Hin. apply Hold in Hin.
    rewrite <- Hc3 in Hin. revert Hin.
    apply (head_chunk_not_older cs n Hcs Hn b bs rest 0 Hsp'). lia.
  - intros x. rewrite app_nil_r, elem_of_cons, ?H1, ?H2, Hnext. cbn [issued].
    split.
    + intros [->|Hx]; [|right; by apply Hold].
      left. exists 0. split; [lia|]. split; [lia|].
      unfold chunk_at, ptr_size in *. lia.
    + intros [(i & Hi & -> & Hlti)|Hx].
      * left. unfold chunk_at, ptr_size in Hlti, Hcs.
        assert (i = 0) as -> by nia. unfold chunk_at. lia.
      * right. apply H10. by eapply issued_all.
  - rewrite ?H1, ?H2, Hlast, Hnext. split; [done|]. split; [done|].
    exists 1. split; [lia | done].
Qed.

(** Putting a chunk the caller holds on the free list. *)
Lemma inv_push w out1 ptr out2 bs fl :
  inv w (out1 ++ ptr :: out2) bs fl →
  ptr ≠ nullptr ∧ inv (pushed ptr w) (out1 ++ out2) bs (ptr :: fl).
Proof.
  intros Hinv. pose proof (inv_spaced _ _ _ _ Hinv) as Hsp.
  destruct Hinv as [H1 H2 H3 H4 H5 H6 H7 H8 H9 H10 H11].
  assert (Hchunk : ∀ x, x ∈ (out1 ++ ptr :: out2) ++ fl → is_chunk cs n bs x).
  { intros x Hx. eapply issued_is_chunk. by apply H10. }
  assert (Hptr : ptr ∈ out1 ++ ptr :: out2).
  { apply elem_of_app. right. by left. }
  assert (Hpc : is_chunk cs n bs ptr).
  { apply Hchunk, elem_of_app. by left. }
  destruct (is_chunk_range cs n Hcs Hn _ _ _ Hsp Hpc) as [Hp0 Hp1].
  assert (Hp : (out1 ++ out2) ++ ptr :: fl ≡ₚ (out1 ++ ptr :: out2) ++ fl).
  { by rewrite <- !Permutation_middle. }
  split; [unfold nullptr; lia|].
  constructor; try done.
  - cbn [pushed log]. rewrite blocks_obtained_app, app_nil_r. done.
  - cbn [pushed log]. rewrite blocks_released_app, app_nil_r. done.
  - unfold block_list in *. cbn [pushed pool heap set_free_chunks_ current_block_].
    apply linked_store_ptr; [|done]. apply Forall_forall. intros b' Hb'.
    destruct (is_chunk_link_separate cs n Hcs Hn _ _ _ _ Hsp Hpc Hb');
      unfold word_disjoint, ptr_size in *; lia.
  - unfold free_list in *. cbn [pushed pool heap set_free_chunks_ free_chunks_].
    unfold ptr_size in *.
    apply linked_push; [lia | by eapply linked_head_range | | done].
    apply Forall_forall. intros y Hy.
    assert (Hyc : is_chunk cs n bs y).
    { apply Hchunk, elem_of_app. by right. }
    apply NoDup_app in H9 as (_ & Hdis & _). specialize (Hdis ptr Hptr).
    destruct (is_chunk_separate cs n Hcs Hn _ _ _ _ Hsp Hpc Hyc)
      as [->|Hsep]; [done|].
    unfold word_disjoint, ptr_size in *. lia.
  - by rewrite Hp.
  - intros x. cbn [pushed pool set_free_chunks_ current_chunk_].
    by rewrite Hp.
Qed.

(** The caller writing a byte into a chunk it holds. *)
Lemma inv_write w out bs fl ptr a v :
  inv w out bs fl →
  ptr ∈ out →
  ptr ≤ a < ptr + chunk_size_ (pool w) →
  inv (mkWorld (pool w) (<[a := v]> (heap w)) (sys w) (log w)) out bs fl.
Proof.
  intros Hinv Hptr Ha. pose proof (inv_spaced _ _ _ _ Hinv) as Hsp.
  destruct Hinv as [H1 H2 H3 H4 H5 H6 H7 H8 H9 H10 H11].
  rewrite H1 in Ha.
  assert (Hchunk : ∀ x, x ∈ out ++ fl → is_chunk cs n bs x).
  { intros x Hx. eapply issued_is_chunk. by apply H10. }
  assert (Hpc : is_chunk cs n bs ptr).
  { apply Hchunk, elem_of_app. by left. }
  constructor; try done.
  - unfold block_list in *. cbn [pool heap].
    apply linked_insert_byte; [|done]. apply Forall_forall. intros b' Hb'.
    destruct (is_chunk_link_separate cs n Hcs Hn _ _ _ _ Hsp Hpc Hb');
      unfold ptr_size in *; lia.
  - unfold free_list in *. cbn [pool heap].
    apply linked_insert_byte; [|done]. apply Forall_forall. intros y Hy.
    assert (Hyc : is_chunk cs n bs y).
    { apply Hchunk, elem_of_app. by right. }
    apply NoDup_app in H9 as (_ & Hdis & _). specialize (Hdis ptr Hptr).
    destruct (is_chunk_separate cs n Hcs Hn _ _ _ _ Hsp Hpc Hyc)
      as [->|Hsep]; [done|].
    unfold ptr_size in *. lia.
Qed.

(** Every world the caller can reach satisfies the invariant. *)
Lemma reachable_inv w out :
  reachable p0 addrs w out → ∃ bs fl, inv w out bs fl.
Proof.
  induction 1 as [|w out w' out' _ (bs & fl & Hinv) Hstep].
  { exists [], []. apply inv_fresh. }
  destruct Hstep as [a w' Halloc | out1 ptr out2 w' -> Hd | w' Hd | ptr a v Hp Ha].
  - destruct (decide (free_chunks_ (pool w) = nullptr)) as [Hfree|Hfree].
    + destruct (Z.lt_ge_cases (current_chunk_ (pool w)) (last_chunk_ (pool w)))
        as [Hlt|Hge].
      * rewrite allocate_bump in Halloc by done. inversion Halloc; subst.
        exists bs, fl. by apply inv_bump.
      * destruct (sys w) as [|b rest] eqn:Hsys.
        { rewrite allocate_out_of_memory in Halloc by done. done. }
        rewrite (allocate_grow b rest) in Halloc; try done.
        -- inversion Halloc; subst. exists (b :: bs), fl. by apply inv_grow.
        -- rewrite (inv_chunk_size _ _ _ _ _ _ Hinv). unfold ptr_size in *. lia.
    + rewrite allocate_pop in Halloc by done. inversion Halloc; subst.
      destruct fl as [|a fl].
      { by destruct (inv_free _ _ _ _ _ _ Hinv). }
      assert (free_chunks_ (pool w) = a) as ->.
      { by destruct (inv_free _ _ _ _ _ _ Hinv). }
      exists bs, fl. by apply inv_pop.
  - destruct (inv_push _ _ _ _ _ _ Hinv) as [Hne Hinv'].
    rewrite deallocate_push in Hd by done. inversion Hd; subst.
    by exists bs, (ptr :: fl).
  - rewrite deallocate_null in Hd. inversion Hd; subst. by exists bs, fl.
  - exists bs, fl. by eapply inv_write.
Qed.

End Invariant.

(** ** Consequences for pools in use *)

Section InUse.
Variable p0 : MemoryPool.
Variable addrs : list Z.
Hypothesis Hcs : ptr_size ≤ chunk_size_ p0.
Hypothesis Hn : 1 ≤ chunks_per_block_ p0.
Hypothesis Hfresh : is_fresh p0.
Hypothesis Hspaced : spaced (chunk_size_ p0) (chunks_per_block_ p0) addrs.

Local Abbreviation cs := (chunk_size_ p0).
Local Abbreviation n := (chunks_per_block_ p0).

(** X13: every chunk of every block is in exactly one of three states: held
    by the caller, on the free list (once), or not yet reached by the
    cursor. *)
Lemma chunk_states w out :
  reachable p0 addrs w out →
  ∃ bs fl,
    blocks_obtained (log w) = reverse bs ∧
    free_list w fl ∧
    NoDup out ∧ NoDup fl ∧
    ∀ a, is_chunk cs n bs a →
      let free := unreached cs n (current_chunk_ (pool w)) bs a in
      (a ∈ out ∨ a ∈ fl ∨ free)
      ∧ ¬ (a ∈ out ∧ a ∈ fl) ∧ ¬ (a ∈ out ∧ free) ∧ ¬ (a ∈ fl ∧ free).
Proof.
  intros Hr.
  destruct (reachable_inv p0 addrs Hcs Hn Hfresh Hspaced w out Hr)
    as (bs & fl & Hinv).
  pose proof (inv_spaced _ _ Hspaced _ _ _ _ Hinv) as Hsp.
  destruct Hinv as [H1 H2 H3 H4 H5 H6 H7 H8 H9 H10 H11].
  exists bs, fl. apply NoDup_app in H9 as (Hnd1 & Hdis & Hnd2).
  do 4 (split; [done|]). intros a Hchunk free.
  assert (Hex : ¬ (issued cs n (current_chunk_ (pool w)) bs a ∧ free)).
  { subst free. destruct bs as [|b older]; simpl; [tauto|].
    intros [[(i & Hi & -> & Hlt)|Hold] (j & Hj & Heq & Hge)]; [lia|].
    rewrite Heq in Hold. revert Hold.
    by apply (head_chunk_not_older cs n Hcs Hn b older (sys w) j Hsp). }
  split; [|split; [|split]].
  - destruct (decide (a ∈ out ++ fl)) as [Hin|Hnin].
    { apply elem_of_app in Hin. tauto. }
    right. right. subst free. rewrite H10 in Hnin.
    destruct Hchunk as (b' & i & Hb' & Hi & ->).
    destruct bs as [|b older]; [by apply elem_of_nil in Hb'|].
    simpl in *. apply elem_of_cons in Hb' as [->|Hb'].
    + exists i. split; [done|]. split; [done|].
      destruct (Z.le_gt_cases (current_chunk_ (pool w)) (chunk_at cs b i));
        [done|].
      exfalso. apply Hnin. left. by exists i.
    + exfalso. apply Hnin. right. by exists b', i.
  - intros [Ho Hf]. by apply (Hdis a).
  - intros [Ho Hf]. apply Hex. split; [|done]. apply H10, elem_of_app. by left.
  - intros [Ho Hf]. apply Hex. split; [|done]. apply H10, elem_of_app. by right.
Qed.

(** [allocate] never returns null or a chunk the caller already holds. *)
Lemma allocate_fresh_chunk w out a w' :
  reachable p0 addrs w out →
  allocate w = Ret a w' →
  a ≠ nullptr ∧ (a ∉ out) ∧ reachable p0 addrs w' (a :: out).
Proof.
  intros Hr Halloc.
  assert (Hr' : reachable p0 addrs w' (a :: out)).
  { eapply reachable_step; [exact Hr|]. by constructor. }
  destruct (reachable_inv p0 addrs Hcs Hn Hfresh Hspaced _ _ Hr')
    as (bs & fl & Hinv).
  pose proof (inv_spaced _ _ Hspaced _ _ _ _ Hinv) as Hsp.
  destruct Hinv as [H1 H2 H3 H4 H5 H6 H7 H8 H9 H10 H11].
  assert (Hc : is_chunk cs n bs a).
  { eapply issued_is_chunk, H10. by left. }
  destruct (is_chunk_range cs n Hcs Hn _ _ _ Hsp Hc) as [Hpos _].
  split; [unfold nullptr; lia|]. split; [|done].
  simpl in H9. apply NoDup_cons in H9 as [Hnin _].
  intros Hin. apply Hnin, elem_of_app. by left.
Qed.

Lemma reachable_allocate_n k : ∀ w out l w',
  reachable p0 addrs w out →
  allocate_n k w = Ret l w' →
  length l = k ∧ reachable p0 addrs w' (reverse l ++ out).
Proof.
  induction k as [|k IH]; intros w out l w' Hr Hrun.
  - inversion Hrun; subst. by split.
  - cbn [allocate_n] in Hrun. unfold bind at 1 in Hrun.
    destruct (allocate w) as [a wa| |] eqn:Halloc; try done.
    unfold bind at 1 in Hrun.
    destruct (allocate_n k wa) as [l' wl| |] eqn:Hrest; try done.
    inversion Hrun; subst.
    destruct (allocate_fresh_chunk _ _ _ _ Hr Halloc) as (_ & _ & Hra).
    destruct (IH _ _ _ _ Hra Hrest) as [Hlen Hrl].
    split; [by rewrite length_cons, Hlen|].
    by rewrite reverse_cons, <- app_assoc.
Qed.

End InUse.

(** ** Reuse of freed chunks in last-in first-out order *)

(** Freeing the chunks [l], whose links overlap neither each other nor
    those of the free list, puts them in front of the free list, the last
    one freed first. *)
Lemma deallocate_all_pushes : ∀ l w fl,
  free_list w fl →
  Forall (λ a, 0 < a < size_modulus) l →
  NoDup (l ++ fl) →
  (∀ a a', a ∈ l → a' ∈ l ++ fl → a = a' ∨ word_disjoint a a') →
  ∃ w',
    deallocate_all l w = Ret tt w' ∧
    free_list w' (reverse l ++ fl) ∧
    blocks_obtained (log w') = blocks_obtained (log w) ∧
    sys w' = sys w ∧
    current_chunk_ (pool w') = current_chunk_ (pool w) ∧
    last_chunk_ (pool w') = last_chunk_ (pool w).
Proof.
  induction l as [|a l IH]; intros w fl Hfl Hrange Hnd Hsep.
  - exists w. by repeat split.
  - apply Forall_cons in Hrange as [Ha Hrange].
    simpl in Hnd. apply NoDup_cons in Hnd as [Hnin Hnd].
    assert (Hpush : free_list (pushed a w) (a :: fl)).
    { unfold free_list in *. cbn [pushed pool heap set_free_chunks_ free_chunks_].
      apply linked_push; [done | by eapply linked_head_range | | done].
      apply Forall_forall. intros y Hy.
      destruct (Hsep a y) as [->|Hd]; [by left | | | done].
      - right. apply elem_of_app. by right.
      - exfalso. apply Hnin, elem_of_app. by right. }
    destruct (IH (pushed a w) (a :: fl) Hpush Hrange) as (w' & Hrun & Hfl' & Hb & Hs & Hc & Hl).
    + rewrite <- Permutation_middle. by constructor.
    + intros x y Hx Hy. apply Hsep; [by right|].
      rewrite <- Permutation_middle in Hy. done.
    + exists w'. cbn [deallocate_all]. unfold bind.
      rewrite deallocate_push by (unfold nullptr; lia).
      split; [done|]. split; [by rewrite reverse_cons, <- app_assoc|].
      split; [|done]. rewrite Hb. cbn [pushed log].
      rewrite blocks_obtained_app. simpl. by rewrite app_nil_r.
Qed.

(** With the chunks [l] in front of the free list, [length l] calls of
    [allocate] return them in list order and obtain no block. *)
Lemma allocate_n_pops : ∀ l w fl,
  free_list w (l ++ fl) →
  ∃ w',
    allocate_n (length l) w = Ret l w' ∧
    free_list w' fl ∧
    blocks_obtained (log w') = blocks_obtained (log w) ∧
    sys w' = sys w ∧
    heap w' = heap w ∧
    current_chunk_ (pool w') = current_chunk_ (pool w) ∧
    last_chunk_ (pool w') = last_chunk_ (pool w).
Proof.
  induction l as [|a l IH]; intros w fl Hfl.
  - exists w. by repeat split.
  - destruct Hfl as (Ha & Hr & Hfl).
    destruct (IH (popped w) fl) as (w' & Hrun & Hfl' & Hb & Hs & Hh & Hc & Hl).
    { unfold free_list. cbn [popped pool heap set_free_chunks_ free_chunks_].
      by rewrite Ha. }
    exists w'. cbn [length allocate_n]. unfold bind.
    rewrite allocate_pop by (rewrite Ha; unfold nullptr; lia).
    rewrite Hrun, Ha. split; [done|]. split; [done|].
    split; [|done]. rewrite Hb. cbn [popped log].
    rewrite blocks_obtained_app. simpl. by rewrite app_nil_r.
Qed.

(** X14: from any world a new pool with chunks no smaller than a pointer
    can be brought to: after [k] chunks are allocated and all of them are freed,
    in any order, the next [k] calls of [allocate] return the same chunks,
    the last one freed first, and obtain no block. *)
Lemma reuse_lifo p0 addrs w out (k : nat) l freed w1 :
  ptr_size ≤ chunk_size_ p0 →
  1 ≤ chunks_per_block_ p0 →
  is_fresh p0 →
  spaced (chunk_size_ p0) (chunks_per_block_ p0) addrs →
  reachable p0 addrs w out →
  allocate_n k w = Ret l w1 →
  freed ≡ₚ l →
  ∃ w2 w3,
    deallocate_all freed w1 = Ret tt w2 ∧
    allocate_n k w2 = Ret (reverse freed) w3 ∧
    blocks_obtained (log w3) = blocks_obtained (log w1) ∧
    current_chunk_ (pool w3) = current_chunk_ (pool w1).
Proof.
  intros Hcs Hn Hfresh Hspaced Hr Hrun Hperm.
  destruct (reachable_allocate_n p0 addrs Hcs Hn Hfresh Hspaced k _ _ _ _
              Hr Hrun) as [Hlen Hr1].
  destruct (reachable_inv p0 addrs Hcs Hn Hfresh Hspaced _ _ Hr1)
    as (bs & fl & Hinv).
  pose proof (inv_spaced _ _ Hspaced _ _ _ _ Hinv) as Hsp.
  destruct Hinv as [H1 H2 H3 H4 H5 H6 H7 H8 H9 H10 H11].
  assert (Hsub : ∀ x, x ∈ freed → x ∈ reverse l ++ out).
  { intros x Hx. apply elem_of_app. left. apply elem_of_reverse.
    by rewrite <- Hperm. }
  assert (Hchunk : ∀ x, x ∈ freed ++ fl →
            is_chunk (chunk_size_ p0) (chunks_per_block_ p0) bs x).
  { intros x Hx. eapply issued_is_chunk, H10.
    apply elem_of_app in Hx as [Hx|Hx]; apply elem_of_app;
      [left; by apply Hsub | by right]. }
  assert (Hnd : NoDup (freed ++ fl)).
  { apply NoDup_app in H9 as (Hnd1 & Hdis & Hnd2).
    apply NoDup_app in Hnd1 as (Hndl & _ & _).
    apply NoDup_app. split; [by rewrite Hperm, <- (reverse_Permutation l)|].
    split; [|done]. intros x Hx. by apply Hdis, Hsub. }
  destruct (deallocate_all_pushes freed w1 fl H8) as (w2 & Hd & Hfl2 & Hb2 & _ & Hc2 & _).
  - apply Forall_forall. intros x Hx.
    destruct (is_chunk_range _ _ Hcs Hn _ _ _ Hsp (Hchunk x ltac:(apply elem_of_app; by left)))
      as [? ?].
    unfold ptr_size in *. lia.
  - done.
  - intros x y Hx Hy.
    destruct (is_chunk_separate _ _ Hcs Hn _ _ _ _ Hsp
                (Hchunk x ltac:(apply elem_of_app; by left)) (Hchunk y Hy))
      as [->|Hsepxy]; [by left|].
    right. unfold word_disjoint, ptr_size in *. lia.
  - destruct (allocate_n_pops (reverse freed) w2 fl Hfl2)
      as (w3 & Ha & _ & Hb3 & _ & _ & Hc3 & _).
    assert (Hlf : length freed = k).
    { rewrite <- Hlen. by apply Permutation_length. }
    rewrite length_reverse, Hlf in Ha.
    exists w2, w3. split; [done|]. split; [done|].
    split; [by rewrite Hb3, Hb2 | by rewrite Hc3, Hc2].
Qed.

Lemma reuse_lifo_witness :
  ∃ w2 w3,
    deallocate_all [48; 36; 60]
      (mkWorld (mkMemoryPool 12 138 10 16 72 156 0)
         (store_ptr ∅ 16 0) [1024] [EvNew 138 16; EvWrite 16])
      = Ret tt w2 ∧
    allocate_n 3 w2 = Ret [60; 36; 48] w3 ∧
    blocks_obtained (log w3) = [16] ∧
    current_chunk_ (pool w3) = 72.
Proof.
  apply (reuse_lifo (mkMemoryPool 12 138 10 0 0 0 0) [16; 1024]
           (fresh_world (mkMemoryPool 12 138 10 0 0 0 0) [16; 1024])
           [] 3 [36; 48; 60] [48; 36; 60]).
  - unfold ptr_size. simpl. lia.
  - simpl. lia.
  - by repeat split.
  - simpl. repeat split; try (by vm_compute).
    constructor; [left; by vm_compute | constructor].
  - constructor.
  - vm_compute. reflexivity.
  - apply perm_swap.
Defined.

(** C3 (fails): a pool made for chunks of 8 bytes aligned to 5 gets chunks
    of 6 bytes, shorter than the link written into a freed chunk. After
    three chunks are allocated and freed, the third allocation returns an
    address that is none of theirs. *)
Theorem C3_reuse_fails_when_links_overlap :
  ∃ p first second w,
    MemoryPool_ctor 8 5 10 = Some p ∧
    chunk_size_ p = 6 ∧
    (l <- allocate_n 3 ;;
     deallocate_all l ;;;
     l' <- allocate_n 3 ;;
     ret (l, l')) (fresh_world p [16]) = Ret (first, second) w ∧
    first = [30; 36; 42] ∧
    second = [42; 36; 10133099161583646] ∧
    second ≠ reverse first ∧
    ¬ second ≡ₚ first.
Proof.
  eexists _, _, _, _. split; [reflexivity|]. split; [reflexivity|].
  split; [vm_compute; reflexivity|].
  split; [reflexivity|]. split; [reflexivity|]. split; [discriminate|].
  intros Hp.
  assert (Hin : 10133099161583646 ∈ [30; 36; 42]).
  { rewrite <- Hp. rewrite !elem_of_cons. auto. }
  rewrite !elem_of_cons, elem_of_nil in Hin. lia.
Qed.

(** ** Teardown *)

Lemma MemoryPool_dtor_step fuel w :
  current_block_ (pool w) ≠ nullptr →
  MemoryPool_dtor (S fuel) w
  = MemoryPool_dtor fuel
      (mkWorld
         (set_current_block_ (load_ptr (heap w) (current_block_ (pool w)))
            (pool w))
         (heap w) (sys w)
         (log w ++ [EvPrintf (current_block_ (pool w));
                    EvRead (current_block_ (pool w));
                    EvDelete (current_block_ (pool w))])).
Proof.
  intros Hne. cbn [MemoryPool_dtor].
  destruct (Z.eqb_spec (current_block_ (pool w)) nullptr) as [|_]; [done|].
  cbn. by rewrite <- !app_assoc.
Qed.

Lemma MemoryPool_dtor_done fuel w :
  current_block_ (pool w) = nullptr →
  MemoryPool_dtor (S fuel) w = Some (Ret tt w).
Proof. intros Heq. cbn [MemoryPool_dtor]. by rewrite Heq. Qed.

Lemma blocks_released_teardown bs : blocks_released (teardown_trace bs) = bs.
Proof.
  induction bs as [|b bs IH]; [done|].
  change (blocks_released (teardown_trace (b :: bs)))
    with (b :: blocks_released (teardown_trace bs)).
  by rewrite IH.
Qed.

Lemma elem_of_teardown_trace e bs :
  e ∈ teardown_trace bs →
  ∃ b, b ∈ bs ∧ (e = EvPrintf b ∨ e = EvRead b ∨ e = EvDelete b).
Proof.
  induction bs as [|b bs IH].
  - by intros ?%elem_of_nil.
  - change (teardown_trace (b :: bs))
      with (EvPrintf b :: EvRead b :: EvDelete b :: teardown_trace bs).
    rewrite !elem_of_cons. intros [->|[->|[->|Hin]]].
    + exists b. split; [by left | auto].
    + exists b. split; [by left | auto].
    + exists b. split; [by left | auto].
    + destruct (IH Hin) as (b' & Hb' & He). exists b'.
      split; [by right | done].
Qed.

(** The loop runs once per block of the list. *)
Lemma MemoryPool_dtor_run : ∀ bs w (fuel : nat),
  block_list w bs →
  (length bs < fuel)%nat →
  ∃ w',
    MemoryPool_dtor fuel w = Some (Ret tt w') ∧
    log w' = log w ++ teardown_trace bs ∧
    current_block_ (pool w') = nullptr ∧
    heap w' = heap w ∧
    free_chunks_ (pool w') = free_chunks_ (pool w) ∧
    current_chunk_ (pool w') = current_chunk_ (pool w).
Proof.
  induction bs as [|b bs IH]; intros w fuel Hbs Hfuel.
  - destruct fuel as [|fuel]; [simpl in Hfuel; lia|].
    exists w. rewrite MemoryPool_dtor_done by exact Hbs.
    unfold teardown_trace. simpl. by rewrite app_nil_r.
  - destruct fuel as [|fuel]; [simpl in Hfuel; lia|].
    destruct Hbs as (Hb & Hr & Hbs).
    rewrite MemoryPool_dtor_step by (unfold nullptr; lia).
    rewrite Hb.
    edestruct (IH (mkWorld
                     (set_current_block_ (load_ptr (heap w) b) (pool w))
                     (heap w) (sys w)
                     (log w ++ [EvPrintf b; EvRead b; EvDelete b])) fuel)
      as (w' & H1 & H2 & H3 & H4 & H5 & H6).
    + exact Hbs.
    + simpl in Hfuel. lia.
    + exists w'. split; [exact H1|]. split; [|done].
      rewrite H2. cbn [log]. unfold teardown_trace. simpl.
      by rewrite <- app_assoc.
Qed.

(** X16: on a pool whose block list is [bs], the destructor ends (given room
    for one test of the loop condition more than there are blocks); it
    releases the blocks of [bs], in list order, and releases nothing else;
    no block is in [bs] twice; all it reads is the link of each block, just
    before the block is released; it writes nothing and runs no destructor
    of an element; the pool is left without blocks. *)
Lemma destructor_releases_block_list : ∀ bs w (fuel : nat),
  block_list w bs →
  (length bs < fuel)%nat →
  ∃ w',
    MemoryPool_dtor fuel w = Some (Ret tt w') ∧
    log w' = log w ++ teardown_trace bs ∧
    blocks_released (teardown_trace bs) = bs ∧
    NoDup bs ∧
    (∀ e, e ∈ teardown_trace bs →
          ∃ b, b ∈ bs ∧ (e = EvPrintf b ∨ e = EvRead b ∨ e = EvDelete b)) ∧
    current_block_ (pool w') = nullptr ∧
    heap w' = heap w ∧
    free_chunks_ (pool w') = free_chunks_ (pool w) ∧
    current_chunk_ (pool w') = current_chunk_ (pool w).
Proof.
  intros bs w fuel Hbs Hfuel.
  assert (Hnd : NoDup bs) by (by eapply linked_NoDup).
  destruct (MemoryPool_dtor_run bs w fuel Hbs Hfuel)
    as (w' & H1 & H2 & H3 & H4 & H5 & H6).
  exists w'. split; [done|]. split; [done|].
  split; [apply blocks_released_teardown|]. split; [done|].
  split; [intros e; apply elem_of_teardown_trace | done].
Qed.

(** The block list grows at its head when a block is obtained. *)
Lemma block_list_with_block b rest w bs :
  0 < b < size_modulus →
  Forall (word_disjoint b) bs →
  block_list w bs → block_list (with_block b rest w) (b :: bs).
Proof.
  intros Hb Hd Hbs. unfold block_list in *. simpl.
  apply linked_push; try done. by eapply linked_head_range.
Qed.

Lemma destructor_releases_block_list_witness :
  ∃ w',
    MemoryPool_dtor 3
      (with_block 1024 []
         (with_block 16 [1024]
            (fresh_world (mkMemoryPool 12 138 10 0 0 0 0) [16; 1024])))
    = Some (Ret tt w') ∧
    blocks_released (log w') = [1024; 16] ∧
    current_block_ (pool w') = nullptr.
Proof.
  destruct (destructor_releases_block_list [1024; 16]
              (with_block 1024 []
                 (with_block 16 [1024]
                    (fresh_world (mkMemoryPool 12 138 10 0 0 0 0) [16; 1024])))
              3%nat)
    as (w' & Hret & Hlog & _ & _ & _ & Hcb & _).
  - apply block_list_with_block; [split; reflexivity | |].
    + constructor; [right; unfold ptr_size; lia | constructor].
    + apply block_list_with_block;
        [split; reflexivity | constructor | reflexivity].
  - simpl. lia.
  - exists w'. split; [exact Hret|]. split; [|exact Hcb].
    rewrite Hlog. reflexivity.
Defined.

(** X15: at the end of any use of a new pool (with chunks no smaller than a
    pointer), the destructor releases every block the pool obtained, each
    once, the newest first. *)
Lemma teardown_releases_every_block p0 addrs w out :
  ptr_size ≤ chunk_size_ p0 →
  1 ≤ chunks_per_block_ p0 →
  is_fresh p0 →
  spaced (chunk_size_ p0) (chunks_per_block_ p0) addrs →
  reachable p0 addrs w out →
  ∃ w',
    MemoryPool_dtor (S (length (blocks_obtained (log w)))) w
      = Some (Ret tt w') ∧
    blocks_released (log w') = reverse (blocks_obtained (log w)) ∧
    NoDup (blocks_obtained (log w)) ∧
    blocks_obtained (log w') = blocks_obtained (log w).
Proof.
  intros Hcs Hn Hfresh Hspaced Hr.
  destruct (reachable_inv p0 addrs Hcs Hn Hfresh Hspaced _ _ Hr)
    as (bs & fl & Hinv).
  destruct Hinv as [H1 H2 H3 H4 H5 H6 H7 H8 H9 H10 H11].
  destruct (MemoryPool_dtor_run bs w (S (length bs)) H7)
    as (w' & Hrun & Hlog & _); [lia|].
  exists w'. rewrite H5, length_reverse, reverse_involutive.
  split; [done|]. rewrite Hlog.
  rewrite blocks_released_app, blocks_obtained_app, H5, H6.
  rewrite blocks_released_teardown.
  split; [done|]. split.
  - rewrite reverse_Permutation. by eapply linked_NoDup.
  - replace (blocks_obtained (teardown_trace bs)) with (@nil Z);
      [by rewrite app_nil_r|].
    clear. induction bs as [|b bs IH]; [done|].
    change (blocks_obtained (teardown_trace (b :: bs)))
      with (blocks_obtained (teardown_trace bs)). done.
Qed.

(** C9 (fails): a pool for chunks of 23 bytes, one per block, gets blocks
    of 32 bytes; with the first block at 16 and the second next to it at 48,
    the chunk of the first block is at 46 and reaches into the link of the
    second. Freeing that chunk overwrites the link, and the destructor then
    releases the block at 48 only: the block at 16 is never released. *)
Theorem C9_block_never_released :
  ∃ p w w',
    MemoryPool_ctor 23 1 1 = Some p ∧
    (a1 <- allocate ;;
     a2 <- allocate ;;
     deallocate a1 ;;;
     ret (a1, a2)) (fresh_world p [16; 48]) = Ret (46, 69) w ∧
    reachable p [16; 48] w [69] ∧
    chunk_within_block (log w) (chunk_size_ p) 46 = false ∧
    (∀ fuel, (2 ≤ fuel)%nat → MemoryPool_dtor fuel w = Some (Ret tt w')) ∧
    blocks_obtained (log w') = [16; 48] ∧
    blocks_released (log w') = [48].
Proof.
  eexists _, _, _. split; [reflexivity|].
  split; [vm_compute; reflexivity|]. split; [|split; [reflexivity|split]].
  - eapply (reachable_step _ _ _ [69; 46] _ [69]).
    + eapply (reachable_step _ _ _ [46] _ [69; 46]).
      * eapply (reachable_step _ _ _ [] _ [46]); [apply reachable_fresh|].
        apply step_allocate. vm_compute. reflexivity.
      * apply step_allocate. vm_compute. reflexivity.
    + apply (step_deallocate _ _ [69] 46 []); [reflexivity|].
      vm_compute. reflexivity.
  - intros [|[|fuel]] Hfuel; [lia | lia |].
    rewrite MemoryPool_dtor_step by (by vm_compute).
    rewrite MemoryPool_dtor_done by (by vm_compute).
    reflexivity.
  - split; reflexivity.
Qed.

(** * Further properties *)

(** ** Sizes chosen by the constructor *)

(** X1: when the alignment divides the size asked for (raised to the size
    of a pointer), the constructor keeps that size: it is the smallest
    multiple of the alignment that is large enough, a chunk can hold a
    link, and the pool starts without blocks and without free chunks. *)
Theorem X1_aligned_size_is_kept chunk_size chunk_alignment n :
  0 < chunk_alignment →
  Z.max ptr_size chunk_size mod chunk_alignment = 0 →
  ∃ p,
    MemoryPool_ctor chunk_size chunk_alignment n = Some p ∧
    chunk_size_ p = Z.max ptr_size chunk_size ∧
    rounds_up_to (Z.max ptr_size chunk_size) chunk_alignment (chunk_size_ p) ∧
    ptr_size ≤ chunk_size_ p ∧
    chunks_per_block_ p = n ∧
    is_fresh p.
Proof.
  intros Ha Hmod.
  destruct (MemoryPool_ctor_aligned chunk_size chunk_alignment n Ha Hmod)
    as (p & Hctor & Hcs & Hge).
  destruct (MemoryPool_ctor_fresh _ _ _ _ Hctor) as [Hfresh Hn].
  destruct (getAssignment_divisible _ _ Ha Hmod) as [_ Hround].
  exists p. rewrite Hcs.
  split; [done|]. split; [done|]. split; [exact Hround|].
  split; [lia|]. by split.
Qed.

Lemma X1_aligned_size_is_kept_witness :
  ∃ p,
    MemoryPool_ctor 12 4 10 = Some p ∧
    chunk_size_ p = Z.max ptr_size 12 ∧
    rounds_up_to (Z.max ptr_size 12) 4 (chunk_size_ p) ∧
    ptr_size ≤ chunk_size_ p ∧
    chunks_per_block_ p = 10 ∧
    is_fresh p.
Proof. apply (X1_aligned_size_is_kept 12 4 10); [lia | reflexivity]. Defined.

(** X2: when the alignment does not divide the size, [getAssignment]
    returns the size less the remainder plus the quotient, and that is the
    smallest large-enough multiple of the alignment only when the quotient
    happens to equal the alignment. *)
Theorem X2_unaligned_size base alignment :
  0 < alignment → 0 ≤ base →
  base mod alignment ≠ 0 →
  alignment + 1 < size_modulus →
  base / alignment * (alignment + 1) < size_modulus →
  ∃ r,
    getAssignment base alignment = Some r ∧
    r = base - base mod alignment + base / alignment ∧
    (rounds_up_to base alignment r ↔ base / alignment = alignment).
Proof.
  intros Ha Hb Hmod Hfit1 Hfit2.
  eexists. split; [by apply getAssignment_not_divisible|]. split; [done|].
  pose proof (Z.div_mod base alignment ltac:(lia)) as Hdm.
  pose proof (Z.mod_pos_bound base alignment Ha) as Hm.
  assert (Hq : 0 ≤ base / alignment) by (apply Z.div_pos; lia).
  set (q := base / alignment) in *. set (m := base mod alignment) in *.
  clearbody q m. split.
  - intros (Hge & (k & Hk) & Hmin).
    assert (Hr : base - m + q ≤ alignment * (q + 1)).
    { apply Hmin; [nia | by exists (q + 1); lia]. }
    assert (Hj : q = (k - q) * alignment) by nia.
    assert (0 < k - q) by nia.
    assert (k - q < 2) by nia.
    assert (k - q = 1) as Hone by lia.
    rewrite Hone in Hj. lia.
  - intros Heq. subst q. clear Hfit1 Hfit2. unfold rounds_up_to.
    split; [lia|]. split.
    + exists (alignment + 1). lia.
    + intros r' Hr' (k & ->).
      assert (alignment < k) by nia. nia.
Qed.

Lemma X2_unaligned_size_witness :
  ∃ r,
    getAssignment 10 3 = Some r ∧
    r = 10 - 10 mod 3 + 10 / 3 ∧
    (rounds_up_to 10 3 r ↔ 10 / 3 = 3).
Proof. apply (X2_unaligned_size 10 3); try done; by vm_compute. Defined.

(** X3: an alignment larger than the size (raised to the size of a
    pointer) makes the chunk size 0. The first [allocate] of such a pool
    then divides by zero in [allocateBlock] when it gets a block, and
    throws [std::bad_alloc] when it gets none. *)
Theorem X3_oversized_alignment chunk_size chunk_alignment n p b rest :
  Z.max ptr_size chunk_size < chunk_alignment →
  MemoryPool_ctor chunk_size chunk_alignment n = Some p →
  chunk_size_ p = 0 ∧
  allocate (fresh_world p (b :: rest)) = Undefined ∧
  allocate (fresh_world p []) = Throw bad_alloc (fresh_world p []).
Proof.
  intros Hlt Hctor. pose proof (MemoryPool_ctor_fresh _ _ _ _ Hctor) as [Hf _].
  destruct Hf as (Hb & Hc & Hl & Hfree).
  assert (Hcs : chunk_size_ p = 0).
  { unfold MemoryPool_ctor, getAssignment in Hctor.
    assert (Hbase : 0 < Z.max ptr_size chunk_size) by (unfold ptr_size; lia).
    destruct (Z.eqb_spec chunk_alignment 0); [lia|].
    rewrite Z.mod_small in Hctor by lia.
    destruct (Z.eqb_spec (Z.max ptr_size chunk_size) 0); [lia|].
    rewrite Z.div_small in Hctor by lia.
    by inversion Hctor. }
  split; [done|]. split.
  - destruct p as [cs bsz cpb cb cc lc fc]. simpl in *. subst.
    reflexivity.
  - apply allocate_out_of_memory; cbn [fresh_world pool sys]; [done | lia | done].
Qed.

Lemma X3_oversized_alignment_witness :
  chunk_size_ (mkMemoryPool 0 18 10 0 0 0 0) = 0 ∧
  allocate (fresh_world (mkMemoryPool 0 18 10 0 0 0 0) [16]) = Undefined ∧
  allocate (fresh_world (mkMemoryPool 0 18 10 0 0 0 0) [])
    = Throw bad_alloc (fresh_world (mkMemoryPool 0 18 10 0 0 0 0) []).
Proof.
  apply (X3_oversized_alignment 8 16 10); [by vm_compute | reflexivity].
Defined.

(** ** Failure to obtain a block *)

Section OutOfMemory.
Context {Args : Type} {T : CxxType Args}.

(** X4: when a block is needed (nothing is free and the cursor is at the
    limit) and [operator new[]] throws, [allocate] throws [std::bad_alloc]
    and leaves the pool, the memory and the trace exactly as they were;
    [make] passes the exception on without calling the constructor. *)
Theorem X4_bad_alloc_leaves_pool_unchanged (args : Args) w :
  free_chunks_ (pool w) = nullptr →
  last_chunk_ (pool w) ≤ current_chunk_ (pool w) →
  sys w = [] →
  allocate w = Throw bad_alloc w ∧ make args w = Throw bad_alloc w.
Proof.
  intros Hfree Hle Hsys.
  assert (Ha : allocate w = Throw bad_alloc w)
    by (by apply allocate_out_of_memory).
  split; [done|]. unfold make, bind. by rewrite Ha.
Qed.
End OutOfMemory.

Lemma X4_bad_alloc_leaves_pool_unchanged_witness :
  allocate (fresh_world (mkMemoryPool 12 138 10 0 0 0 0) [])
    = Throw bad_alloc (fresh_world (mkMemoryPool 12 138 10 0 0 0 0) []) ∧
  make (H := DummyPoint) (10, 20, 30)
       (fresh_world (mkMemoryPool 12 138 10 0 0 0 0) [])
    = Throw bad_alloc (fresh_world (mkMemoryPool 12 138 10 0 0 0 0) []).
Proof.
  apply (X4_bad_alloc_leaves_pool_unchanged (T := DummyPoint));
    [reflexivity | simpl; lia | reflexivity].
Defined.

(** ** Freeing and allocating again *)

(** X5: [deallocate] of a non-null pointer followed by [allocate] returns
    that pointer and puts every field of the pool back as it was; no block
    is obtained, and memory differs only by the old head stored in the
    first word at the pointer. *)
Theorem X5_deallocate_allocate_round_trip ptr w :
  0 < ptr < size_modulus →
  0 ≤ free_chunks_ (pool w) < size_modulus →
  ∃ w1 w2,
    deallocate ptr w = Ret tt w1 ∧
    allocate w1 = Ret ptr w2 ∧
    pool w2 = pool w ∧
    heap w2 = store_ptr (heap w) ptr (free_chunks_ (pool w)) ∧
    sys w2 = sys w ∧
    log w2 = log w ++ [EvWrite ptr; EvRead ptr].
Proof.
  intros Hptr Hfree.
  exists (pushed ptr w), (popped (pushed ptr w)).
  split; [apply deallocate_push; unfold nullptr; lia|].
  split; [apply allocate_pop; simpl; unfold nullptr; lia|].
  split; [|split; [done|split; [done|]]].
  - cbn [popped pushed pool heap set_free_chunks_ free_chunks_].
    rewrite load_ptr_store_ptr_eq by done. by destruct (pool w).
  - cbn [popped pushed pool log set_free_chunks_ free_chunks_].
    by rewrite <- app_assoc.
Qed.

Lemma X5_deallocate_allocate_round_trip_witness :
  ∃ w1 w2,
    deallocate 60 (mkWorld (mkMemoryPool 12 138 10 16 72 156 48) ∅ [] [])
      = Ret tt w1 ∧
    allocate w1 = Ret 60 w2 ∧
    pool w2 = mkMemoryPool 12 138 10 16 72 156 48 ∧
    heap w2 = store_ptr ∅ 60 48 ∧
    sys w2 = [] ∧
    log w2 = [EvWrite 60; EvRead 60].
Proof.
  apply (X5_deallocate_allocate_round_trip 60
           (mkWorld (mkMemoryPool 12 138 10 16 72 156 48) ∅ [] []));
    by vm_compute.
Defined.

Section TypedReuse.
Context {Args : Type} {T : CxxType Args}.

(** X6: [destroy] of an object whose destructor returns, or throws an
    exception derived from [std::exception], followed by a [make] whose
    constructor returns, gives the new object the address of the old one;
    the fields of the pool are as before and no block is obtained. *)
Theorem X6_destroy_then_make_reuses ptr args w h1 r h2 :
  0 < ptr < size_modulus →
  0 ≤ free_chunks_ (pool w) < size_modulus →
  destructor_T ptr (heap w) = (h1, r) →
  from_option is_std_exception true r = true →
  constructor_T args ptr (store_ptr h1 ptr (free_chunks_ (pool w)))
    = (h2, None) →
  ∃ w1 w2,
    destroy ptr w = Ret tt w1 ∧
    make args w1 = Ret ptr w2 ∧
    pool w2 = pool w ∧
    heap w2 = h2 ∧
    sys w2 = sys w ∧
    log w2 = log w ++ [EvDestruct ptr; EvWrite ptr; EvRead ptr; EvConstruct ptr].
Proof.
  intros Hptr Hfree Hdtor Hr Hctor.
  assert (Hne : ptr ≠ nullptr) by (unfold nullptr; lia).
  eexists _, _. split; [by eapply destroy_reclaims|]. split.
  - eapply make_constructed.
    + apply allocate_pop. simpl. exact Hne.
    + exact Hctor.
  - split; [|split; [done|split; [done|]]].
    + cbn [popped pushed pool heap set_free_chunks_ free_chunks_].
      rewrite load_ptr_store_ptr_eq by done. by destruct (pool w).
    + cbn [popped pushed pool log set_free_chunks_ free_chunks_].
      by rewrite <- !app_assoc.
Qed.
End TypedReuse.

Lemma X6_destroy_then_make_reuses_witness :
  ∃ w1 w2,
    destroy (H := DummyPoint) 36
      (mkWorld (mkMemoryPool 12 138 10 16 48 156 0) ∅ [] []) = Ret tt w1 ∧
    make (H := DummyPoint) (40, 50, 60) w1 = Ret 36 w2 ∧
    pool w2 = mkMemoryPool 12 138 10 16 48 156 0 ∧
    heap w2 = fst (DummyPoint_ctor (40, 50, 60) 36 (store_ptr ∅ 36 0)) ∧
    sys w2 = [] ∧
    log w2 = [EvDestruct 36; EvWrite 36; EvRead 36; EvConstruct 36].
Proof.
  apply (X6_destroy_then_make_reuses (T := DummyPoint) 36 (40, 50, 60)
           (mkWorld (mkMemoryPool 12 138 10 16 48 156 0) ∅ [] []) ∅ None);
    by vm_compute.
Defined.

(** ** Allocation without frees: block after block, chunk after chunk *)

Lemma allocate_n_app (k1 : nat) : ∀ (k2 : nat) w l1 w1 l2 w2,
  allocate_n k1 w = Ret l1 w1 →
  allocate_n k2 w1 = Ret l2 w2 →
  allocate_n (k1 + k2) w = Ret (l1 ++ l2) w2.
Proof.
  induction k1 as [|k1 IH]; intros k2 w l1 w1 l2 w2 H1 H2.
  - inversion H1; subst. exact H2.
  - cbn [allocate_n Nat.add] in *. unfold bind at 1 in H1. unfold bind at 1.
    destruct (allocate w) as [a wa| |]; try done.
    unfold bind at 1 in H1. unfold bind at 1.
    destruct (allocate_n k1 wa) as [l wl| |] eqn:Hrun; try done.
    inversion H1; subst.
    by rewrite (IH k2 wa l w1 l2 w2 Hrun H2).
Qed.

(** With the cursor at chunk [k] of the block at [b] and [j] chunks left
    before the limit, [j] calls return them in address order and move the
    cursor to the limit; nothing else changes. *)
Lemma allocate_n_bumps cs b (j : nat) : ∀ k w,
  free_chunks_ (pool w) = nullptr →
  chunk_size_ (pool w) = cs → 0 < cs →
  0 ≤ chunk_at cs b k →
  current_chunk_ (pool w) = chunk_at cs b k →
  last_chunk_ (pool w) = chunk_at cs b (k + Z.of_nat j) →
  chunk_at cs b (k + Z.of_nat j) < size_modulus →
  allocate_n j w
  = Ret (map (chunk_at cs b) (seqZ k (Z.of_nat j)))
        (mkWorld (set_current_chunk_ (last_chunk_ (pool w)) (pool w))
                 (heap w) (sys w) (log w)).
Proof.
  induction j as [|j IH]; intros k w Hfree Hcs Hpos Hk Hcur Hlast Hmax.
  - simpl. unfold ret. f_equal. rewrite Z.add_0_r in Hlast.
    destruct w as [[] ? ? ?]. simpl in *. by subst.
  - cbn [allocate_n]. unfold bind at 1.
    assert (Hstep : chunk_at cs b (k + 1) = chunk_at cs b k + cs)
      by (unfold chunk_at; lia).
    assert (Hle : chunk_at cs b (k + 1) ≤ chunk_at cs b (k + Z.of_nat (S j)))
      by (unfold chunk_at; nia).
    rewrite allocate_bump by (try done; lia).
    unfold bind at 1.
    rewrite (IH (k + 1) (bumped w));
      cbn [bumped pool heap sys log set_current_chunk_ free_chunks_
           chunk_size_ current_chunk_ last_chunk_];
      try done; try lia.
    + unfold ret. rewrite Hcur. f_equal.
      rewrite (seqZ_cons k) by lia. cbn [map]. do 3 f_equal; lia.
    + rewrite Hcs, Hcur, <- Hstep. apply wrap_small. lia.
    + rewrite Hlast. f_equal. lia.
    + replace (k + 1 + Z.of_nat j) with (k + Z.of_nat (S j)) by lia. done.
Qed.

(** When a block is needed, [chunks_per_block_] calls obtain one block and
    return its chunks in address order, leaving the cursor at the limit. *)
Lemma allocate_n_block cs n b rest w :
  free_chunks_ (pool w) = nullptr →
  last_chunk_ (pool w) ≤ current_chunk_ (pool w) →
  sys w = b :: rest →
  chunk_size_ (pool w) = cs → chunks_per_block_ (pool w) = n →
  0 < cs → 1 ≤ n →
  block_addressable cs n b →
  allocate_n (Z.to_nat n) w
  = Ret (block_chunks cs n b)
        (mkWorld (set_current_chunk_ (chunk_at cs b n)
                    (pool (with_block b rest w)))
                 (heap (with_block b rest w)) rest
                 (log (with_block b rest w))).
Proof.
  intros Hfree Hle Hsys Hcs Hn Hpos Hn1 [Hb Hfit].
  unfold extent, ptr_size in Hfit.
  destruct (first_chunk_of_spec cs b) as (_ & Hc0 & _);
    [lia | lia | unfold ptr_size; nia |]. unfold ptr_size in Hc0.
  assert (Hlast : wrap (first_chunk_of cs b + wrap (n * cs)) = chunk_at cs b n).
  { rewrite (wrap_small (n * cs)) by nia. unfold chunk_at.
    rewrite wrap_small by nia. lia. }
  assert (Hnext : wrap (first_chunk_of cs b + cs) = chunk_at cs b 1).
  { unfold chunk_at. rewrite wrap_small by nia. lia. }
  replace (Z.to_nat n) with (S (Z.to_nat (n - 1))) by lia.
  cbn [allocate_n]. unfold bind at 1.
  rewrite (allocate_grow b rest) by (try done; lia).
  unfold bind at 1.
  rewrite (allocate_n_bumps cs b (Z.to_nat (n - 1)) 1);
    cbn [bumped with_block pool heap sys log set_current_chunk_
         set_last_chunk_ set_current_block_ free_chunks_ chunk_size_
         chunks_per_block_ current_chunk_ last_chunk_];
    rewrite ?Hcs, ?Hn, ?Hlast, ?Hnext; try done;
    try (unfold chunk_at; nia).
  unfold ret, block_chunks. f_equal.
  rewrite (seqZ_cons 0 n) by lia. cbn [map]. f_equal.
  - unfold chunk_at. lia.
  - do 2 f_equal; lia.
Qed.

(** X7: without frees a new pool hands out memory block after block and,
    inside a block, chunk after chunk: for the blocks [bs] that
    [operator new[]] returns, [chunks_per_block_] calls per block return the
    chunks of the first block in address order, then those of the second,
    and so on; exactly the blocks [bs] are obtained, each when the previous
    one is used up. *)
Theorem X7_allocation_order p bs rest :
  is_fresh p →
  0 < chunk_size_ p →
  1 ≤ chunks_per_block_ p →
  Forall (block_addressable (chunk_size_ p) (chunks_per_block_ p)) bs →
  ∃ w',
    allocate_n (length bs * Z.to_nat (chunks_per_block_ p))
      (fresh_world p (bs ++ rest))
    = Ret (concat (map (block_chunks (chunk_size_ p) (chunks_per_block_ p)) bs))
          w' ∧
    blocks_obtained (log w') = bs ∧
    sys w' = rest ∧
    free_chunks_ (pool w') = nullptr ∧
    current_chunk_ (pool w') = last_chunk_ (pool w').
Proof.
  intros (Hcb & Hcc & Hlc & Hfc) Hcs Hn Hbs.
  set (cs := chunk_size_ p) in *. set (n := chunks_per_block_ p) in *.
  cut (∀ w, sys w = bs ++ rest →
            free_chunks_ (pool w) = nullptr →
            current_chunk_ (pool w) = last_chunk_ (pool w) →
            chunk_size_ (pool w) = cs → chunks_per_block_ (pool w) = n →
            ∃ w',
              allocate_n (length bs * Z.to_nat n) w
              = Ret (concat (map (block_chunks cs n) bs)) w' ∧
              blocks_obtained (log w') = blocks_obtained (log w) ++ bs ∧
              sys w' = rest ∧
              free_chunks_ (pool w') = nullptr ∧
              current_chunk_ (pool w') = last_chunk_ (pool w')).
  { intros Hgen. apply (Hgen (fresh_world p (bs ++ rest))); try done.
    cbn [fresh_world pool]. by rewrite Hlc, Hcc. }
  clear Hcb Hcc Hlc Hfc.
  induction Hbs as [|b bs Hb Hbs IH]; intros w Hsys Hfree Heq Hcsw Hnw.
  - exists w. simpl. unfold ret. by rewrite app_nil_r.
  - pose proof (allocate_n_block cs n b (bs ++ rest) w Hfree ltac:(lia) Hsys
                  Hcsw Hnw Hcs Hn Hb) as Hblock.
    edestruct (IH (mkWorld (set_current_chunk_ (chunk_at cs b n)
                              (pool (with_block b (bs ++ rest) w)))
                           (heap (with_block b (bs ++ rest) w)) (bs ++ rest)
                           (log (with_block b (bs ++ rest) w))))
      as (w' & Hrun & Hlog & Hs & Hf & Hc); try done.
    + cbn [with_block pool set_current_chunk_ set_last_chunk_
           set_current_block_ current_chunk_ last_chunk_].
      rewrite Hcsw, Hnw. destruct Hb as [Hb0 Hfit].
      unfold extent, ptr_size in Hfit.
      destruct (first_chunk_of_spec cs b) as (_ & Hc0 & _);
        [lia | lia | unfold ptr_size; nia |]. unfold ptr_size in Hc0.
      rewrite (wrap_small (n * cs)) by nia. unfold chunk_at.
      rewrite wrap_small by nia. lia.
    + exists w'. split; [|split; [|done]].
      * cbn [length Nat.mul map concat].
        by apply (allocate_n_app _ _ _ _ _ _ _ Hblock Hrun).
      * rewrite Hlog. cbn [with_block log].
        rewrite !blocks_obtained_app. simpl. by rewrite app_nil_r, <- app_assoc.
Qed.

Lemma X7_allocation_order_witness :
  ∃ w',
    allocate_n (length [16; 1024] * Z.to_nat 10)
      (fresh_world (mkMemoryPool 12 138 10 0 0 0 0) ([16; 1024] ++ []))
    = Ret (concat (map (block_chunks 12 10) [16; 1024])) w' ∧
    blocks_obtained (log w') = [16; 1024] ∧
    sys w' = [] ∧
    free_chunks_ (pool w') = nullptr ∧
    current_chunk_ (pool w') = last_chunk_ (pool w').
Proof.
  apply (X7_allocation_order (mkMemoryPool 12 138 10 0 0 0 0) [16; 1024] []).
  - by repeat split.
  - reflexivity.
  - simpl. lia.
  - repeat constructor; by vm_compute.
Defined.

(** ** Pools in use: what a caller can rely on *)

Lemma example_reachable :
  reachable example_pool [16; 1024] example_world [60; 36].
Proof.
  eapply (reachable_step _ _ _ [60; 48; 36] _ [60; 36]).
  - eapply (reachable_step _ _ _ [48; 36] _ [60; 48; 36]).
    + eapply (reachable_step _ _ _ [36] _ [48; 36]).
      * eapply (reachable_step _ _ _ [] _ [36]); [apply reachable_fresh|].
        apply step_allocate. vm_compute. reflexivity.
      * apply step_allocate. vm_compute. reflexivity.
    + apply step_allocate. vm_compute. reflexivity.
  - apply (step_deallocate _ _ [60] 48 [36]); [reflexivity|].
    vm_compute. reflexivity.
Qed.

Lemma example_spaced : spaced 12 10 [16; 1024].
Proof.
  simpl. repeat split; try (by vm_compute).
  constructor; [left; by vm_compute | constructor].
Qed.

(** Chunks start at multiples of the chunk size. *)
Lemma is_chunk_aligned cs n bs s a :
  ptr_size ≤ cs → 1 ≤ n →
  spaced cs n (reverse bs ++ s) → is_chunk cs n bs a → a mod cs = 0.
Proof.
  intros Hcs Hn Hsp (b & i & Hb & Hi & ->).
  destruct (obtained_addressable cs n _ _ _ Hsp Hb) as [Hb0 Hfit].
  unfold extent, ptr_size in *.
  destruct (first_chunk_of_spec cs b) as (_ & _ & Hmod);
    [lia | lia | unfold ptr_size; nia |].
  unfold chunk_at. rewrite Z.mod_add by lia. exact Hmod.
Qed.

Section Reliance.
Variable p0 : MemoryPool.
Variable addrs : list Z.
Hypothesis Hcs : ptr_size ≤ chunk_size_ p0.
Hypothesis Hn : 1 ≤ chunks_per_block_ p0.
Hypothesis Hfresh : is_fresh p0.
Hypothesis Hspaced : spaced (chunk_size_ p0) (chunks_per_block_ p0) addrs.

Local Abbreviation cs := (chunk_size_ p0).
Local Abbreviation n := (chunks_per_block_ p0).

(** X8: in a pool in use, [allocate] returns a non-null address that is a
    multiple of the chunk size, whose chunk lies below 2^64 and overlaps no
    chunk the caller already holds. *)
Theorem X8_allocate_returns_fresh_chunk w out a w' :
  reachable p0 addrs w out →
  allocate w = Ret a w' →
  0 < a ∧ a + cs < size_modulus ∧ a mod cs = 0 ∧
  ∀ a', a' ∈ out → a + cs ≤ a' ∨ a' + cs ≤ a.
Proof.
  intros Hr Halloc.
  destruct (allocate_fresh_chunk p0 addrs Hcs Hn Hfresh Hspaced _ _ _ _
              Hr Halloc) as (_ & Hnin & Hr').
  destruct (reachable_inv p0 addrs Hcs Hn Hfresh Hspaced _ _ Hr')
    as (bs & fl & Hinv).
  pose proof (inv_spaced _ _ Hspaced _ _ _ _ Hinv) as Hsp.
  destruct Hinv as [H1 H2 H3 H4 H5 H6 H7 H8 H9 H10 H11].
  assert (Hchunk : ∀ x, x ∈ a :: out → is_chunk cs n bs x).
  { intros x Hx. eapply issued_is_chunk, H10. apply elem_of_app. by left. }
  assert (Ha : is_chunk cs n bs a) by (apply Hchunk; by left).
  destruct (is_chunk_range cs n Hcs Hn _ _ _ Hsp Ha) as [Hpos Hmax].
  split; [done|]. split; [done|].
  split; [by eapply is_chunk_aligned|].
  intros a' Ha'.
  destruct (is_chunk_separate cs n Hcs Hn _ _ _ _ Hsp Ha
              (Hchunk a' ltac:(by right))) as [->|Hsep]; [done | exact Hsep].
Qed.

(** X9: in a pool in use, any two chunks that are held by the caller or on
    the free list are the same chunk or do not overlap, and none of them
    overlaps the link at the start of a block. *)
Theorem X9_chunks_do_not_overlap w out :
  reachable p0 addrs w out →
  ∃ bs fl,
    blocks_obtained (log w) = reverse bs ∧
    block_list w bs ∧
    free_list w fl ∧
    (∀ a a', a ∈ out ++ fl → a' ∈ out ++ fl →
             a = a' ∨ a + cs ≤ a' ∨ a' + cs ≤ a) ∧
    (∀ a b, a ∈ out ++ fl → b ∈ bs → b + ptr_size ≤ a ∨ a + cs ≤ b).
Proof.
  intros Hr.
  destruct (reachable_inv p0 addrs Hcs Hn Hfresh Hspaced _ _ Hr)
    as (bs & fl & Hinv).
  pose proof (inv_spaced _ _ Hspaced _ _ _ _ Hinv) as Hsp.
  destruct Hinv as [H1 H2 H3 H4 H5 H6 H7 H8 H9 H10 H11].
  assert (Hchunk : ∀ x, x ∈ out ++ fl → is_chunk cs n bs x).
  { intros x Hx. eapply issued_is_chunk. by apply H10. }
  exists bs, fl. do 3 (split; [done|]). split.
  - intros a a' Ha Ha'.
    apply (is_chunk_separate cs n Hcs Hn bs (sys w)); auto.
  - intros a b Ha Hb.
    apply (is_chunk_link_separate cs n Hcs Hn bs (sys w)); auto.
Qed.

(** X10: the bytes of a chunk the caller holds are changed neither by
    [allocate] nor by [deallocate] of another chunk it holds. *)
Theorem X10_held_chunk_is_not_written w out a x :
  reachable p0 addrs w out →
  a ∈ out →
  a ≤ x < a + cs →
  (∀ a' w', allocate w = Ret a' w' → heap w' !! x = heap w !! x) ∧
  (∀ ptr w', ptr ∈ out → ptr ≠ a → deallocate ptr w = Ret tt w' →
             heap w' !! x = heap w !! x).
Proof.
  intros Hr Ha Hx.
  destruct (reachable_inv p0 addrs Hcs Hn Hfresh Hspaced _ _ Hr)
    as (bs & fl & Hinv).
  pose proof (inv_spaced _ _ Hspaced _ _ _ _ Hinv) as Hsp.
  destruct Hinv as [H1 H2 H3 H4 H5 H6 H7 H8 H9 H10 H11].
  assert (Hchunk : ∀ y, y ∈ out → is_chunk cs n bs y).
  { intros y Hy. eapply issued_is_chunk, H10. apply elem_of_app. by left. }
  pose proof (Hchunk a Ha) as Hac.
  split.
  - intros a' w' Halloc.
    destruct (decide (free_chunks_ (pool w) = nullptr)) as [Hfree|Hfree].
    + destruct (Z.lt_ge_cases (current_chunk_ (pool w)) (last_chunk_ (pool w)))
        as [Hlt|Hge].
      * rewrite allocate_bump in Halloc by done. by inversion Halloc.
      * destruct (sys w) as [|b rest] eqn:Hsys.
        { rewrite allocate_out_of_memory in Halloc by done. done. }
        rewrite (allocate_grow b rest) in Halloc;
          [|done|done|done|rewrite H1; unfold ptr_size in *; lia].
        inversion Halloc; subst a' w'. cbn [bumped with_block heap].
        unfold store_ptr. apply lookup_store_le_out.
        destruct Hac as (b' & i & Hb' & Hi & ->).
        pose proof (coming_apart cs n _ _ _ _ Hsp Hb') as Hap.
        pose proof (obtained_addressable cs n _ _ _ Hsp Hb') as Hab'.
        destruct (chunk_at_bounds cs n Hcs Hn b' i Hab') as (Hc1 & _ & Hc2 & _);
          [lia|]. specialize (Hc2 ltac:(lia)).
        pose proof (extent_ge cs n Hcs Hn).
        unfold apart, ptr_size in *. destruct Hab' as [? ?]. lia.
    + rewrite allocate_pop in Halloc by done. by inversion Halloc.
  - intros ptr w' Hptr Hne Hd.
    pose proof (Hchunk ptr Hptr) as Hpc.
    destruct (is_chunk_range cs n Hcs Hn _ _ _ Hsp Hpc) as [Hp0 _].
    rewrite deallocate_push in Hd by (unfold nullptr; lia).
    inversion Hd; subst w'. cbn [pushed heap].
    unfold store_ptr. apply lookup_store_le_out.
    destruct (is_chunk_separate cs n Hcs Hn _ _ _ _ Hsp Hpc Hac)
      as [->|Hsep]; [done|].
    unfold ptr_size in *. lia.
Qed.

(** X11: a pool in use keeps its sizes, releases no block, and has in its
    block list exactly the blocks it obtained, the newest first, none
    twice. *)
Theorem X11_pool_only_grows w out :
  reachable p0 addrs w out →
  chunk_size_ (pool w) = chunk_size_ p0 ∧
  block_size_ (pool w) = block_size_ p0 ∧
  chunks_per_block_ (pool w) = chunks_per_block_ p0 ∧
  blocks_released (log w) = [] ∧
  block_list w (reverse (blocks_obtained (log w))) ∧
  NoDup (blocks_obtained (log w)) ∧
  addrs = blocks_obtained (log w) ++ sys w.
Proof.
  intros Hr.
  destruct (reachable_inv p0 addrs Hcs Hn Hfresh Hspaced _ _ Hr)
    as (bs & fl & Hinv).
  destruct Hinv as [H1 H2 H3 H4 H5 H6 H7 H8 H9 H10 H11].
  rewrite H5, reverse_involutive. do 5 (split; [done|]).
  split; [|done]. rewrite reverse_Permutation. by eapply linked_NoDup.
Qed.

End Reliance.

Lemma X8_allocate_returns_fresh_chunk_witness :
  0 < 48 ∧ 48 + 12 < size_modulus ∧ 48 mod 12 = 0 ∧
  ∀ a', a' ∈ [60; 36] → 48 + 12 ≤ a' ∨ a' + 12 ≤ 48.
Proof.
  apply (X8_allocate_returns_fresh_chunk example_pool [16; 1024]
           ltac:(by vm_compute) ltac:(by vm_compute) ltac:(by repeat split)
           example_spaced example_world [60; 36] 48 (popped example_world)
           example_reachable).
  reflexivity.
Defined.

Lemma X9_chunks_do_not_overlap_witness :
  ∃ bs fl,
    blocks_obtained (log example_world) = reverse bs ∧
    block_list example_world bs ∧
    free_list example_world fl ∧
    (∀ a a', a ∈ [60; 36] ++ fl → a' ∈ [60; 36] ++ fl →
             a = a' ∨ a + 12 ≤ a' ∨ a' + 12 ≤ a) ∧
    (∀ a b, a ∈ [60; 36] ++ fl → b ∈ bs → b + ptr_size ≤ a ∨ a + 12 ≤ b).
Proof.
  apply (X9_chunks_do_not_overlap example_pool [16; 1024]
           ltac:(by vm_compute) ltac:(by vm_compute) ltac:(by repeat split)
           example_spaced example_world [60; 36] example_reachable).
Defined.

Lemma X10_held_chunk_is_not_written_witness :
  (∀ a' w', allocate example_world = Ret a' w' →
            heap w' !! 64 = heap example_world !! 64) ∧
  (∀ ptr w', ptr ∈ [60; 36] → ptr ≠ 60 →
             deallocate ptr example_world = Ret tt w' →
             heap w' !! 64 = heap example_world !! 64).
Proof.
  apply (X10_held_chunk_is_not_written example_pool [16; 1024]
           ltac:(by vm_compute) ltac:(by vm_compute) ltac:(by repeat split)
           example_spaced example_world [60; 36] 60 64 example_reachable).
  - by left.
  - simpl. lia.
Defined.

Lemma X11_pool_only_grows_witness :
  chunk_size_ (pool example_world) = 12 ∧
  block_size_ (pool example_world) = 138 ∧
  chunks_per_block_ (pool example_world) = 10 ∧
  blocks_released (log example_world) = [] ∧
  block_list example_world (reverse (blocks_obtained (log example_world))) ∧
  NoDup (blocks_obtained (log example_world)) ∧
  [16; 1024] = blocks_obtained (log example_world) ++ sys example_world.
Proof.
  apply (X11_pool_only_grows example_pool [16; 1024]
           ltac:(by vm_compute) ltac:(by vm_compute) ltac:(by repeat split)
           example_spaced example_world [60; 36] example_reachable).
Defined.

(** ** Room for the chunks of a block *)

(** X12: in a block of a pool made by the constructor every chunk starts
    inside the block, after the link. All chunks end inside the block
    exactly when the padding before the first chunk is at most
    [chunks_per_block_] bytes, which is certain when the chunk size is no
    more than the number of chunks per block. *)
Theorem X12_chunks_fit_criterion chunk_size chunk_alignment n p b :
  MemoryPool_ctor chunk_size chunk_alignment n = Some p →
  0 < chunk_size_ p → 1 ≤ n →
  ptr_size + (chunk_size_ p + 1) * n < size_modulus →
  block_addressable (chunk_size_ p) n b →
  block_size_ p = ptr_size + (chunk_size_ p + 1) * n ∧
  (∀ i, 0 ≤ i < n →
        b + ptr_size < chunk_at (chunk_size_ p) b i < b + block_size_ p) ∧
  ((∀ i, 0 ≤ i < n →
         chunk_at (chunk_size_ p) b i + chunk_size_ p ≤ b + block_size_ p)
   ↔ first_chunk_of (chunk_size_ p) b ≤ b + ptr_size + n) ∧
  (chunk_size_ p ≤ n →
   ∀ i, 0 ≤ i < n →
        chunk_at (chunk_size_ p) b i + chunk_size_ p ≤ b + block_size_ p).
Proof.
  intros Hctor Hcs Hn Hsize [Hb Hfit].
  assert (Hbs : block_size_ p = ptr_size + (chunk_size_ p + 1) * n).
  { unfold MemoryPool_ctor in Hctor.
    destruct (getAssignment _ _) as [cs|]; [|done].
    inversion Hctor; subst p. simpl in *. unfold ptr_size in *.
    rewrite (wrap_small (cs + 1)) by nia.
    rewrite (wrap_small ((cs + 1) * n)) by nia.
    apply wrap_small. nia. }
  unfold extent, ptr_size in *.
  destruct (first_chunk_of_spec (chunk_size_ p) b) as (_ & Hc0 & _);
    [lia | lia | unfold ptr_size; nia |]. unfold ptr_size in Hc0.
  rewrite Hbs. unfold chunk_at.
  split; [done|]. split; [intros i Hi; nia|]. split; [split|].
  - intros Hall. specialize (Hall (n - 1) ltac:(lia)). nia.
  - intros Hpad i Hi. nia.
  - intros Hle i Hi. nia.
Qed.

Lemma X12_chunks_fit_criterion_witness :
  block_size_ (mkMemoryPool 12 138 10 0 0 0 0) = ptr_size + (12 + 1) * 10 ∧
  (∀ i, 0 ≤ i < 10 → 32 + ptr_size < chunk_at 12 32 i < 32 + 138) ∧
  ((∀ i, 0 ≤ i < 10 → chunk_at 12 32 i + 12 ≤ 32 + 138)
   ↔ first_chunk_of 12 32 ≤ 32 + ptr_size + 10) ∧
  (12 ≤ 10 → ∀ i, 0 ≤ i < 10 → chunk_at 12 32 i + 12 ≤ 32 + 138).
Proof.
  apply (X12_chunks_fit_criterion 12 4 10 (mkMemoryPool 12 138 10 0 0 0 0) 32);
    try reflexivity; try lia; by vm_compute.
Defined.

(** ** Witnesses of earlier properties *)

Lemma chunk_states_witness :
  ∃ bs fl,
    blocks_obtained (log example_world) = reverse bs ∧
    free_list example_world fl ∧
    NoDup [60; 36] ∧ NoDup fl ∧
    ∀ a, is_chunk 12 10 bs a →
      let free := unreached 12 10 (current_chunk_ (pool example_world)) bs a in
      (a ∈ [60; 36] ∨ a ∈ fl ∨ free)
      ∧ ¬ (a ∈ [60; 36] ∧ a ∈ fl) ∧ ¬ (a ∈ [60; 36] ∧ free)
      ∧ ¬ (a ∈ fl ∧ free).
Proof.
  apply (chunk_states example_pool [16; 1024]
           ltac:(by vm_compute) ltac:(by vm_compute) ltac:(by repeat split)
           example_spaced example_world [60; 36] example_reachable).
Defined.

Lemma teardown_releases_every_block_witness :
  ∃ w',
    MemoryPool_dtor (S (length (blocks_obtained (log example_world))))
      example_world = Some (Ret tt w') ∧
    blocks_released (log w') = reverse (blocks_obtained (log example_world)) ∧
    NoDup (blocks_obtained (log example_world)) ∧
    blocks_obtained (log w') = blocks_obtained (log example_world).
Proof.
  apply (teardown_releases_every_block example_pool [16; 1024]
           example_world [60; 36]
           ltac:(by vm_compute) ltac:(by vm_compute) ltac:(by repeat split)
           example_spaced example_reachable).
Defined.

Lemma make_after_std_exception_witness :
  ∃ w2 w3,
    make (H := Thrower) (Some std_exception, None)
      (fresh_world (mkMemoryPool 8 98 10 0 0 0 0) [16]) = Ret nullptr w2 ∧
    free_chunks_ (pool w2) = 32 ∧
    make (H := Thrower) (None, None) w2 = Ret 32 w3 ∧
    blocks_obtained (log w3) = [16] ∧
    current_chunk_ (pool w3) = 40.
Proof.
  apply (make_after_std_exception (T := Thrower)
           (Some std_exception, None) (None, None)
           (fresh_world (mkMemoryPool 8 98 10 0 0 0 0) [16]) 32
           (mkWorld (mkMemoryPool 8 98 10 16 40 112 0) (store_ptr ∅ 16 0) []
                    [EvNew 98 16; EvWrite 16])
           (store_ptr ∅ 16 0)
           (<[32 := 0]> (store_ptr (store_ptr ∅ 16 0) 32 0))
           std_exception);
    by vm_compute.
Defined.

(** ** Typed pools in use *)

(** A list whose links read the same in another memory is a list there. *)
Lemma linked_agree (h h' : gmap Z Z) : ∀ l head,
  (∀ a x, a ∈ l → a ≤ x < a + ptr_size → h' !! x = h !! x) →
  linked h head l → linked h' head l.
Proof.
  induction l as [|a l IH]; intros head Hag Hl; simpl in *; [done|].
  destruct Hl as (-> & Hr & Hl). split; [done|]. split; [done|].
  replace (load_ptr h' a) with (load_ptr h a).
  - apply IH; [|done]. intros y x Hy. apply Hag. by right.
  - unfold load_ptr. apply load_le_ext. intros x Hx. unfold byte_at.
    rewrite (Hag a x); [done | by left | unfold ptr_size; lia].
Qed.

Section TypedInUse.
Context {Args : Type} {T : CxxType Args}.
Variable p0 : MemoryPool.
Variable addrs : list Z.
Hypothesis Hcs : ptr_size ≤ chunk_size_ p0.
Hypothesis Hn : 1 ≤ chunks_per_block_ p0.
Hypothesis Hfresh : is_fresh p0.
Hypothesis Hspaced : spaced (chunk_size_ p0) (chunks_per_block_ p0) addrs.
Hypothesis Hsize : sizeof_T ≤ chunk_size_ p0.
Hypothesis Hconf : confined T.

Local Abbreviation cs := (chunk_size_ p0).
Local Abbreviation n := (chunks_per_block_ p0).
Local Abbreviation inv := (pool_inv p0 addrs).

(** [allocate] keeps the invariant and writes into no chunk that is held. *)
Lemma inv_allocate w out bs fl a w' :
  inv w out bs fl →
  allocate w = Ret a w' →
  (∃ bs' fl', inv w' (a :: out) bs' fl') ∧
  ∀ o x, o ∈ out → o ≤ x < o + cs → heap w' !! x = heap w !! x.
Proof.
  intros Hinv Halloc.
  pose proof (inv_spaced _ _ Hspaced _ _ _ _ Hinv) as Hsp.
  destruct (decide (free_chunks_ (pool w) = nullptr)) as [Hfree|Hfree].
  - destruct (Z.lt_ge_cases (current_chunk_ (pool w)) (last_chunk_ (pool w)))
      as [Hlt|Hge].
    + rewrite allocate_bump in Halloc by done. inversion Halloc; subst.
      split; [|done]. exists bs, fl. by apply inv_bump.
    + destruct (sys w) as [|b rest] eqn:Hsys.
      { rewrite allocate_out_of_memory in Halloc by done. done. }
      rewrite (allocate_grow b rest) in Halloc;
        [|done|done|done|
         rewrite (inv_chunk_size _ _ _ _ _ _ Hinv); unfold ptr_size in *; lia].
      inversion Halloc; subst a w'. split.
      * exists (b :: bs), fl. by apply inv_grow.
      * intros o x Ho Hx. cbn [bumped with_block heap].
        unfold store_ptr. apply lookup_store_le_out.
        assert (Hoc : is_chunk cs n bs o).
        { eapply issued_is_chunk, (inv_issued _ _ _ _ _ _ Hinv).
          apply elem_of_app. by left. }
        destruct Hoc as (b' & i & Hb' & Hi & ->).
        pose proof (coming_apart cs n _ _ _ _ Hsp Hb') as Hap.
        pose proof (obtained_addressable cs n _ _ _ Hsp Hb') as Hab'.
        destruct (chunk_at_bounds cs n Hcs Hn b' i Hab') as (Hc1 & _ & Hc2 & _);
          [lia|]. specialize (Hc2 ltac:(lia)).
        pose proof (extent_ge cs n Hcs Hn).
        unfold apart, ptr_size in *. destruct Hab' as [? ?]. lia.
  - rewrite allocate_pop in Halloc by done. inversion Halloc; subst.
    split; [|done].
    destruct fl as [|a fl].
    { by destruct (inv_free _ _ _ _ _ _ Hinv). }
    assert (free_chunks_ (pool w) = a) as ->.
    { by destruct (inv_free _ _ _ _ _ _ Hinv). }
    exists bs, fl. by apply inv_pop.
Qed.

(** A change of memory inside a chunk that is held, with a trace that shows
    no block obtained or released, keeps the invariant. *)
Lemma inv_havoc w out bs fl ptr h' l' :
  inv w out bs fl →
  ptr ∈ out →
  (∀ x, x < ptr ∨ ptr + cs ≤ x → h' !! x = heap w !! x) →
  blocks_obtained l' = blocks_obtained (log w) →
  blocks_released l' = blocks_released (log w) →
  inv (mkWorld (pool w) h' (sys w) l') out bs fl.
Proof.
  intros Hinv Hptr Hout Hob Hrel.
  pose proof (inv_spaced _ _ Hspaced _ _ _ _ Hinv) as Hsp.
  destruct Hinv as [H1 H2 H3 H4 H5 H6 H7 H8 H9 H10 H11].
  assert (Hchunk : ∀ x, x ∈ out ++ fl → is_chunk cs n bs x).
  { intros x Hx. eapply issued_is_chunk. by apply H10. }
  assert (Hpc : is_chunk cs n bs ptr).
  { apply Hchunk, elem_of_app. by left. }
  constructor; cbn [pool heap sys log]; try done; try congruence.
  - unfold block_list in *. cbn [pool heap].
    apply (linked_agree (heap w)); [|done]. intros b' x Hb' Hx. apply Hout.
    destruct (is_chunk_link_separate cs n Hcs Hn _ _ _ _ Hsp Hpc Hb');
      unfold ptr_size in *; lia.
  - unfold free_list in *. cbn [pool heap].
    apply (linked_agree (heap w)); [|done]. intros y x Hy Hx. apply Hout.
    assert (Hyc : is_chunk cs n bs y).
    { apply Hchunk, elem_of_app. by right. }
    apply NoDup_app in H9 as (_ & Hdis & _). specialize (Hdis ptr Hptr).
    destruct (is_chunk_separate cs n Hcs Hn _ _ _ _ Hsp Hpc Hyc)
      as [->|Hsep]; [done|].
    unfold ptr_size in *. lia.
Qed.

(** How [make] can return. *)
Lemma make_returns args w obj w' :
  make args w = Ret obj w' →
  ∃ mem w1,
    allocate w = Ret mem w1 ∧
    let built := mkWorld (pool w1) (constructor_T args mem (heap w1)).1
                         (sys w1) (log w1 ++ [EvConstruct mem]) in
    match (constructor_T args mem (heap w1)).2 with
    | None => obj = mem ∧ w' = built
    | Some e =>
        is_std_exception e = true ∧ obj = nullptr
        ∧ deallocate mem built = Ret tt w'
    end.
Proof.
  unfold make, bind at 1. destruct (allocate w) as [mem w1| |]; try done.
  intros Hrun. exists mem, w1. split; [done|].
  unfold bind, try_catch_std, placement_new in Hrun.
  destruct (constructor_T args mem (heap w1)) as [h' [e|]]; simpl in *.
  - destruct (is_std_exception e); [|done].
    unfold bind in Hrun.
    destruct (deallocate mem _) as [[] wd| |] eqn:Hd; try done.
    by inversion Hrun.
  - by inversion Hrun.
Qed.

(** How [destroy] of a non-null pointer can return. *)
Lemma destroy_returns ptr w w' :
  ptr ≠ nullptr →
  destroy ptr w = Ret tt w' →
  from_option is_std_exception true (destructor_T ptr (heap w)).2 = true ∧
  w' = pushed ptr (mkWorld (pool w) (destructor_T ptr (heap w)).1 (sys w)
                           (log w ++ [EvDestruct ptr])).
Proof.
  intros Hne. unfold destroy.
  destruct (Z.eqb_spec ptr nullptr) as [|_]; [done|]. cbn [negb].
  unfold bind at 1, try_catch_std, call_destructor.
  destruct (destructor_T ptr (heap w)) as [h' [e|]]; simpl.
  - destruct (is_std_exception e); [|done]. unfold ret.
    rewrite deallocate_push by done. by intros [= <-].
  - rewrite deallocate_push by done. by intros [= <-].
Qed.

(** [make] keeps the invariant, with the new object (if any) held, and
    writes into no chunk that was held. *)
Lemma inv_make w out bs fl args obj w' :
  inv w out bs fl →
  make args w = Ret obj w' →
  (∃ bs' fl', inv w' (if decide (obj = nullptr) then out else obj :: out)
                  bs' fl') ∧
  ∀ o x, o ∈ out → o ≤ x < o + cs → heap w' !! x = heap w !! x.
Proof.
  intros Hinv Hmake.
  destruct (make_returns _ _ _ _ Hmake) as (mem & w1 & Halloc & Hcase).
  destruct (inv_allocate _ _ _ _ _ _ Hinv Halloc)
    as [(bs1 & fl1 & Hinv1) Hframe1].
  pose proof (inv_spaced _ _ Hspaced _ _ _ _ Hinv1) as Hsp1.
  assert (Hmc : is_chunk cs n bs1 mem).
  { eapply issued_is_chunk, (inv_issued _ _ _ _ _ _ Hinv1).
    apply elem_of_app. left. by left. }
  destruct (is_chunk_range cs n Hcs Hn _ _ _ Hsp1 Hmc) as [Hm0 Hm1].
  assert (Hbuilt : inv (mkWorld (pool w1) (constructor_T args mem (heap w1)).1
                          (sys w1) (log w1 ++ [EvConstruct mem]))
                       (mem :: out) bs1 fl1).
  { apply (inv_havoc w1 (mem :: out) bs1 fl1 mem); [done | by left | | |].
    - intros x Hx. apply (proj1 Hconf). lia.
    - rewrite blocks_obtained_app. simpl. by rewrite app_nil_r.
    - rewrite blocks_released_app. simpl. by rewrite app_nil_r. }
  assert (Hsep : ∀ o x, o ∈ out → o ≤ x < o + cs → x < mem ∨ mem + cs ≤ x).
  { intros o x Ho Hx.
    assert (Hoc : is_chunk cs n bs1 o).
    { eapply issued_is_chunk, (inv_issued _ _ _ _ _ _ Hinv1).
      apply elem_of_app. left. by right. }
    pose proof (inv_nodup _ _ _ _ _ _ Hinv1) as Hnd. simpl in Hnd.
    apply NoDup_cons in Hnd as [Hnin _].
    destruct (is_chunk_separate cs n Hcs Hn _ _ _ _ Hsp1 Hmc Hoc)
      as [->|Hs]; [|lia].
    exfalso. apply Hnin, elem_of_app. by left. }
  assert (Hframe2 : ∀ o x, o ∈ out → o ≤ x < o + cs →
            (constructor_T args mem (heap w1)).1 !! x = heap w !! x).
  { intros o x Ho Hx. rewrite <- (Hframe1 o x Ho Hx).
    apply (proj1 Hconf). specialize (Hsep o x Ho Hx). lia. }
  destruct ((constructor_T args mem (heap w1)).2) as [e|].
  - destruct Hcase as (_ & -> & Hd).
    rewrite deallocate_push in Hd by (unfold nullptr; lia).
    inversion Hd; subst w'. rewrite decide_True by done. split.
    + exists bs1, (mem :: fl1).
      by destruct (inv_push p0 addrs Hcs Hn Hspaced _ [] mem out bs1 fl1 Hbuilt).
    + intros o x Ho Hx. cbn [pushed heap]. unfold store_ptr.
      rewrite lookup_store_le_out; [by eapply Hframe2|].
      specialize (Hsep o x Ho Hx). unfold ptr_size in *. lia.
  - destruct Hcase as [-> ->].
    rewrite decide_False by (unfold nullptr; lia).
    split; [by exists bs1, fl1 | done].
Qed.

(** [destroy] of an object that is held keeps the invariant, with the
    object no longer held, and writes into no other chunk that is held. *)
Lemma inv_destroy w l1 ptr l2 bs fl w' :
  inv w (l1 ++ ptr :: l2) bs fl →
  destroy ptr w = Ret tt w' →
  inv w' (l1 ++ l2) bs (ptr :: fl) ∧
  ∀ o x, o ∈ l1 ++ l2 → o ≤ x < o + cs → heap w' !! x = heap w !! x.
Proof.
  intros Hinv Hd.
  pose proof (inv_spaced _ _ Hspaced _ _ _ _ Hinv) as Hsp.
  assert (Hin : ptr ∈ l1 ++ ptr :: l2).
  { apply elem_of_app. right. by left. }
  assert (Hchunk : ∀ y, y ∈ l1 ++ ptr :: l2 → is_chunk cs n bs y).
  { intros y Hy. eapply issued_is_chunk, (inv_issued _ _ _ _ _ _ Hinv).
    apply elem_of_app. by left. }
  pose proof (Hchunk ptr Hin) as Hpc.
  destruct (is_chunk_range cs n Hcs Hn _ _ _ Hsp Hpc) as [Hp0 Hp1].
  destruct (destroy_returns ptr w w' ltac:(unfold nullptr; lia) Hd)
    as [_ ->].
  assert (Hdone : inv (mkWorld (pool w) (destructor_T ptr (heap w)).1 (sys w)
                         (log w ++ [EvDestruct ptr]))
                      (l1 ++ ptr :: l2) bs fl).
  { apply (inv_havoc w (l1 ++ ptr :: l2) bs fl ptr); [done | done | | |].
    - intros x Hx. apply (proj2 Hconf). lia.
    - rewrite blocks_obtained_app. simpl. by rewrite app_nil_r.
    - rewrite blocks_released_app. simpl. by rewrite app_nil_r. }
  split.
  - by destruct (inv_push p0 addrs Hcs Hn Hspaced _ _ _ _ _ _ Hdone).
  - intros o x Ho Hx. cbn [pushed heap]. unfold store_ptr.
    assert (Ho' : o ∈ l1 ++ ptr :: l2).
    { apply elem_of_app in Ho as [Ho|Ho]; apply elem_of_app;
        [by left | right; by right]. }
    assert (Hne : ptr ≠ o).
    { intros ->. pose proof (inv_nodup _ _ _ _ _ _ Hinv) as Hnd.
      apply NoDup_app in Hnd as (Hnd & _ & _).
      apply NoDup_app in Hnd as (_ & Hdis & Hnd2).
      apply NoDup_cons in Hnd2 as [Hnin _].
      apply elem_of_app in Ho as [Ho|Ho]; [|done].
      apply (Hdis o Ho). by left. }
    destruct (is_chunk_separate cs n Hcs Hn _ _ _ _ Hsp Hpc (Hchunk o Ho'))
      as [->|Hsep]; [done|].
    rewrite lookup_store_le_out by (unfold ptr_size in *; lia).
    apply (proj2 Hconf). lia.
Qed.

(** Every world the user of the typed pool can reach satisfies the
    invariant, the objects it holds being the chunks that are out. *)
Lemma typed_reachable_inv w live :
  typed_reachable p0 addrs w live → ∃ bs fl, inv w live bs fl.
Proof.
  induction 1 as [|w live w' live' _ (bs & fl & Hinv) Hstep].
  { exists [], []. by apply inv_fresh. }
  destruct Hstep as [args obj w' Hm Hne | args w' Hm | l1 ptr l2 w' -> Hd].
  - destruct (inv_make _ _ _ _ _ _ _ Hinv Hm) as [(bs' & fl' & Hinv') _].
    rewrite decide_False in Hinv' by done. by exists bs', fl'.
  - destruct (inv_make _ _ _ _ _ _ _ Hinv Hm) as [(bs' & fl' & Hinv') _].
    rewrite decide_True in Hinv' by done. by exists bs', fl'.
  - destruct (inv_destroy _ _ _ _ _ _ _ Hinv Hd) as [Hinv' _].
    by exists bs, (ptr :: fl).
Qed.

(** The objects held after a [make] that returned one are distinct chunks
    of the blocks obtained. *)
Lemma typed_make_held w live args obj w' :
  typed_reachable p0 addrs w live →
  make args w = Ret obj w' →
  obj ≠ nullptr →
  (obj ∉ live) ∧
  ∃ bs, spaced cs n (reverse bs ++ sys w') ∧
        ∀ y, y ∈ obj :: live → is_chunk cs n bs y.
Proof.
  intros Hr Hm Hne.
  destruct (typed_reachable_inv _ _ Hr) as (bs & fl & Hinv).
  destruct (inv_make _ _ _ _ _ _ _ Hinv Hm) as [(bs' & fl' & Hinv') _].
  rewrite decide_False in Hinv' by done. split.
  - pose proof (inv_nodup _ _ _ _ _ _ Hinv') as Hnd.
    apply NoDup_app in Hnd as (Hnd & _ & _).
    by apply NoDup_cons in Hnd as [Hnin _].
  - exists bs'. split; [by eapply inv_spaced|].
    intros y Hy. eapply issued_is_chunk, (inv_issued _ _ _ _ _ _ Hinv').
    apply elem_of_app. by left.
Qed.

(** X18: in a typed pool in use, an object that [make] returns lies at a
    non-null multiple of the chunk size, below 2^64, and its chunk overlaps
    the chunk of no object already held. *)
Theorem X18_make_returns_fresh_object w live args obj w' :
  typed_reachable p0 addrs w live →
  make args w = Ret obj w' →
  obj ≠ nullptr →
  0 < obj ∧ obj + cs < size_modulus ∧ obj mod cs = 0 ∧
  ∀ o, o ∈ live → obj + cs ≤ o ∨ o + cs ≤ obj.
Proof.
  intros Hr Hm Hne.
  destruct (typed_make_held _ _ _ _ _ Hr Hm Hne)
    as (Hnin & bs & Hsp & Hchunk).
  assert (Hoc : is_chunk cs n bs obj) by (apply Hchunk; by left).
  destruct (is_chunk_range cs n Hcs Hn _ _ _ Hsp Hoc) as [H0 H1].
  split; [done|]. split; [done|]. split.
  { by eapply is_chunk_aligned. }
  intros o Ho.
  destruct (is_chunk_separate cs n Hcs Hn _ _ _ _ Hsp Hoc
              (Hchunk o ltac:(by right))) as [->|Hsep]; [done | lia].
Qed.

(** X19: the bytes of an object that is held are changed neither by a
    [make] nor by the [destroy] of another object that is held. *)
Theorem X19_live_object_is_not_written w live o x :
  typed_reachable p0 addrs w live →
  o ∈ live →
  o ≤ x < o + cs →
  (∀ args obj w', make args w = Ret obj w' → heap w' !! x = heap w !! x) ∧
  (∀ ptr w', ptr ∈ live → ptr ≠ o → destroy ptr w = Ret tt w' →
     heap w' !! x = heap w !! x).
Proof.
  intros Hr Ho Hx.
  destruct (typed_reachable_inv _ _ Hr) as (bs & fl & Hinv). split.
  - intros args obj w' Hm.
    destruct (inv_make _ _ _ _ _ _ _ Hinv Hm) as [_ Hframe].
    by apply (Hframe o).
  - intros ptr w' Hptr Hne Hd.
    apply list_elem_of_split in Hptr as (l1 & l2 & ->).
    destruct (inv_destroy _ _ _ _ _ _ _ Hinv Hd) as [_ Hframe].
    apply (Hframe o); [|done].
    apply elem_of_app in Ho as [Ho|Ho]; apply elem_of_app; [by left|].
    apply elem_of_cons in Ho as [->|Ho]; [done | by right].
Qed.

(** X20: in a typed pool in use, [make] returns null only after the
    constructor of [T] has thrown a [std::exception]; the chunk it was
    given, which is not null, is then the head of the free list, and the
    objects held are the same. *)
Theorem X20_make_null_after_exception w live args w' :
  typed_reachable p0 addrs w live →
  make args w = Ret nullptr w' →
  ∃ mem w1 e,
    allocate w = Ret mem w1 ∧
    mem ≠ nullptr ∧
    (constructor_T args mem (heap w1)).2 = Some e ∧
    is_std_exception e = true ∧
    free_chunks_ (pool w') = mem ∧
    load_ptr (heap w') mem = free_chunks_ (pool w1) ∧
    typed_reachable p0 addrs w' live.
Proof.
  intros Hr Hm.
  destruct (typed_reachable_inv _ _ Hr) as (bs & fl & Hinv).
  destruct (make_returns _ _ _ _ Hm) as (mem & w1 & Halloc & Hcase).
  destruct (inv_allocate _ _ _ _ _ _ Hinv Halloc)
    as [(bs1 & fl1 & Hinv1) _].
  pose proof (inv_spaced _ _ Hspaced _ _ _ _ Hinv1) as Hsp1.
  assert (Hmc : is_chunk cs n bs1 mem).
  { eapply issued_is_chunk, (inv_issued _ _ _ _ _ _ Hinv1).
    apply elem_of_app. left. by left. }
  destruct (is_chunk_range cs n Hcs Hn _ _ _ Hsp1 Hmc) as [Hm0 Hm1].
  assert (Hmne : mem ≠ nullptr) by (unfold nullptr; lia).
  destruct ((constructor_T args mem (heap w1)).2) as [e|] eqn:Hres.
  - destruct Hcase as (Hstd & _ & Hd). exists mem, w1, e.
    rewrite deallocate_push in Hd by done. inversion Hd; subst w'.
    do 4 (split; [done|]). split; [reflexivity|]. split.
    + cbn [pushed heap pool]. apply load_ptr_store_ptr_eq.
      pose proof (inv_free _ _ _ _ _ _ Hinv1) as Hfl.
      destruct fl1 as [|f fl1]; simpl in Hfl.
      * rewrite Hfl. unfold nullptr, size_modulus. lia.
      * destruct Hfl as (-> & Hf & _). lia.
    + eapply typed_reachable_step; [exact Hr|].
      by apply (typed_make_null _ _ args).
  - destruct Hcase as [Heq _]. by rewrite <- Heq in Hmne.
Qed.

(** X21: at the end of any use of a typed pool, whatever objects are still
    held, the destructor of the pool releases every block the pool
    obtained, each once, the newest first, and changes no byte of memory. *)
Theorem X21_typed_teardown w live :
  typed_reachable p0 addrs w live →
  ∃ w',
    MemoryPool_dtor (S (length (blocks_obtained (log w)))) w
      = Some (Ret tt w') ∧
    blocks_released (log w') = reverse (blocks_obtained (log w)) ∧
    NoDup (blocks_obtained (log w)) ∧
    heap w' = heap w.
Proof.
  intros Hr.
  destruct (typed_reachable_inv _ _ Hr) as (bs & fl & Hinv).
  destruct Hinv as [H1 H2 H3 H4 H5 H6 H7 H8 H9 H10 H11].
  destruct (MemoryPool_dtor_run bs w (S (length bs)) H7)
    as (w' & Hrun & Hlog & _ & Hheap & _); [lia|].
  exists w'. rewrite H5, length_reverse, reverse_involutive.
  split; [done|]. rewrite Hlog, blocks_released_app, H6.
  rewrite blocks_released_teardown.
  split; [done|]. split; [|done].
  rewrite reverse_Permutation. by eapply linked_NoDup.
Qed.

End TypedInUse.

Lemma DummyPoint_confined : confined DummyPoint.
Proof.
  split.
  - intros [[a b] c] mem h x Hx. cbn [sizeof_T DummyPoint] in Hx.
    change ((DummyPoint_ctor (a, b, c) mem h).1 !! x = h !! x).
    unfold DummyPoint_ctor. cbn [fst].
    rewrite !lookup_store_le_out; [done|lia..].
  - done.
Qed.

Lemma typed_example_reachable :
  typed_reachable (T := DummyPoint) example_pool [16; 1024]
    typed_example_world [48].
Proof.
  eapply (typed_reachable_step _ _ _ [48; 36] _ [48]).
  - eapply (typed_reachable_step _ _ _ [36] _ [48; 36]).
    + eapply (typed_reachable_step _ _ _ [] _ [36]);
        [apply typed_reachable_fresh|].
      apply (typed_make _ _ (10, 20, 30) 36); [|done].
      vm_compute. reflexivity.
    + apply (typed_make _ _ (10, 20, 30) 48); [|done].
      vm_compute. reflexivity.
  - apply (typed_destroy _ _ [48] 36 []); [reflexivity|].
    vm_compute. reflexivity.
Qed.

Lemma X18_make_returns_fresh_object_witness :
  0 < 36 ∧ 36 + 12 < size_modulus ∧ 36 mod 12 = 0 ∧
  ∀ o, o ∈ [48] → 36 + 12 ≤ o ∨ o + 12 ≤ 36.
Proof.
  eapply (X18_make_returns_fresh_object (T := DummyPoint)
            example_pool [16; 1024]
            ltac:(by vm_compute) ltac:(by vm_compute) ltac:(by repeat split)
            example_spaced ltac:(by vm_compute) DummyPoint_confined
            typed_example_world [48] (40, 50, 60) 36 _
            typed_example_reachable).
  - vm_compute. reflexivity.
  - done.
Defined.

Lemma X19_live_object_is_not_written_witness :
  (∀ args obj w', make (H := DummyPoint) args typed_example_world = Ret obj w' →
     heap w' !! 52 = heap typed_example_world !! 52) ∧
  (∀ ptr w', ptr ∈ [48] → ptr ≠ 48 →
     destroy (H := DummyPoint) ptr typed_example_world = Ret tt w' →
     heap w' !! 52 = heap typed_example_world !! 52).
Proof.
  apply (X19_live_object_is_not_written (T := DummyPoint)
           example_pool [16; 1024]
           ltac:(by vm_compute) ltac:(by vm_compute) ltac:(by repeat split)
           example_spaced ltac:(by vm_compute) DummyPoint_confined
           typed_example_world [48] 48 52 typed_example_reachable).
  - by left.
  - simpl. lia.
Defined.

Lemma Thrower_confined : confined Thrower.
Proof.
  split.
  - intros [[e|] d] mem h x Hx; cbn in *; [done|].
    apply lookup_insert_ne. lia.
  - done.
Qed.

Lemma X20_make_null_after_exception_witness :
  ∃ mem w1 e,
    allocate (fresh_world (mkMemoryPool 8 98 10 0 0 0 0) [16]) = Ret mem w1 ∧
    mem ≠ nullptr ∧
    (constructor_T (Some std_exception, None) mem (heap w1)).2 = Some e ∧
    is_std_exception e = true ∧
    free_chunks_ (pool (pushed 32
       (mkWorld (mkMemoryPool 8 98 10 16 40 112 0) (store_ptr ∅ 16 0) []
                [EvNew 98 16; EvWrite 16; EvConstruct 32]))) = mem ∧
    load_ptr (heap (pushed 32
       (mkWorld (mkMemoryPool 8 98 10 16 40 112 0) (store_ptr ∅ 16 0) []
                [EvNew 98 16; EvWrite 16; EvConstruct 32]))) mem
      = free_chunks_ (pool w1) ∧
    typed_reachable (T := Thrower) (mkMemoryPool 8 98 10 0 0 0 0) [16]
      (pushed 32
       (mkWorld (mkMemoryPool 8 98 10 16 40 112 0) (store_ptr ∅ 16 0) []
                [EvNew 98 16; EvWrite 16; EvConstruct 32])) [].
Proof.
  apply (X20_make_null_after_exception (T := Thrower)
           (mkMemoryPool 8 98 10 0 0 0 0) [16]
           ltac:(by vm_compute) ltac:(by vm_compute) ltac:(by repeat split)
           ltac:(by repeat split) ltac:(by vm_compute) Thrower_confined
           (fresh_world (mkMemoryPool 8 98 10 0 0 0 0) [16]) []
           (Some std_exception, None) _ (typed_reachable_fresh _ _)).
  vm_compute. reflexivity.
Defined.

Lemma X21_typed_teardown_witness :
  ∃ w',
    MemoryPool_dtor (S (length (blocks_obtained (log typed_example_world))))
      typed_example_world = Some (Ret tt w') ∧
    blocks_released (log w')
      = reverse (blocks_obtained (log typed_example_world)) ∧
    NoDup (blocks_obtained (log typed_example_world)) ∧
    heap w' = heap typed_example_world.
Proof.
  apply (X21_typed_teardown (T := DummyPoint) example_pool [16; 1024]
           ltac:(by vm_compute) ltac:(by vm_compute) ltac:(by repeat split)
           example_spaced ltac:(by vm_compute) DummyPoint_confined
           typed_example_world [48] typed_example_reachable).
Defined.

(** ** Typed pools of C++ types *)

(** For a C++ type (its alignment a power of two that divides its size),
    the alignment divides the size raised to the size of a pointer. *)
Lemma alignment_divides_raised_size (k size : Z) :
  0 ≤ k → 0 < size → (2 ^ k | size) → Z.max ptr_size size mod 2 ^ k = 0.
Proof.
  intros Hk Hsize Hdiv. unfold ptr_size.
  destruct (Z.le_gt_cases 8 size) as [Hle|Hgt].
  - rewrite Z.max_r by done. apply Z.mod_divide; [lia | done].
  - rewrite Z.max_l by lia.
    assert (2 ^ k ≤ size) by (apply Z.divide_pos_le; [lia | done]).
    assert (k < 3).
    { destruct (Z.lt_ge_cases k 3) as [|Hge]; [done|].
      pose proof (Z.pow_le_mono_r 2 3 k ltac:(lia) Hge). lia. }
    assert (Hk3 : k = 0 ∨ k = 1 ∨ k = 2) by lia.
    destruct Hk3 as [->|[->| ->]]; reflexivity.
Qed.

(** X22: for a C++ type [T] (its alignment a power of two that divides its
    size) whose constructor and destructor write only inside the object,
    [TypedMemoryPool<T>] gets chunks of the larger of a pointer and [T]
    in size, and every object [make] returns is aligned for [T] and overlaps
    no object already held. *)
Theorem X22_typed_pool_objects_aligned {Args : Type} {T : CxxType Args}
    (k n : Z) (addrs : list Z) :
  0 ≤ k → alignof_T = 2 ^ k → 0 < sizeof_T → (alignof_T | sizeof_T) →
  1 ≤ n →
  confined T →
  spaced (Z.max ptr_size sizeof_T) n addrs →
  ∃ p,
    TypedMemoryPool_ctor n = Some p ∧
    chunk_size_ p = Z.max ptr_size sizeof_T ∧
    ∀ w live args obj w',
      typed_reachable p addrs w live →
      make args w = Ret obj w' →
      obj ≠ nullptr →
      obj mod alignof_T = 0 ∧
      ∀ o, o ∈ live → obj + sizeof_T ≤ o ∨ o + sizeof_T ≤ obj.
Proof.
  intros Hk Hal Hsize Hdiv Hn Hconf Hspaced.
  assert (Hmod : Z.max ptr_size sizeof_T mod alignof_T = 0).
  { rewrite Hal in *. by apply alignment_divides_raised_size. }
  assert (Ha : 0 < alignof_T) by (rewrite Hal; lia).
  unfold TypedMemoryPool_ctor.
  destruct (MemoryPool_ctor_aligned sizeof_T alignof_T n Ha Hmod)
    as (p & Hctor & Hcs & Hge).
  destruct (MemoryPool_ctor_fresh _ _ _ _ Hctor) as [Hfresh Hnp].
  exists p. split; [done|]. split; [done|].
  intros w live args obj w' Hr Hm Hne.
  rewrite <- Hcs, <- Hnp in Hspaced.
  assert (Hn' : 1 ≤ chunks_per_block_ p) by lia.
  assert (Hsz : sizeof_T ≤ chunk_size_ p) by lia.
  destruct (typed_make_held p addrs Hge Hn' Hfresh Hspaced Hsz Hconf
              _ _ _ _ _ Hr Hm Hne) as (Hnin & bs & Hsp & Hchunk).
  assert (Hoc : is_chunk (chunk_size_ p) (chunks_per_block_ p) bs obj)
    by (apply Hchunk; by left).
  split.
  - pose proof (is_chunk_aligned _ _ _ _ _ Hge Hn' Hsp Hoc) as Hobj.
    apply Z.mod_divide; [lia|]. apply Z.mod_divide in Hobj; [|lia].
    apply Z.mod_divide in Hmod; [|lia].
    etrans; [exact Hmod|]. by rewrite <- Hcs.
  - intros o Ho.
    destruct (is_chunk_separate _ _ Hge Hn' _ _ _ _ Hsp Hoc
                (Hchunk o ltac:(by right))) as [->|Hsep]; [done | lia].
Qed.

Lemma X22_typed_pool_objects_aligned_witness :
  ∃ p,
    TypedMemoryPool_ctor (H := DummyPoint) 10 = Some p ∧
    chunk_size_ p = Z.max ptr_size 12 ∧
    ∀ w live args obj w',
      typed_reachable (T := DummyPoint) p [16; 1024] w live →
      make (H := DummyPoint) args w = Ret obj w' →
      obj ≠ nullptr →
      obj mod 4 = 0 ∧
      ∀ o, o ∈ live → obj + 12 ≤ o ∨ o + 12 ≤ obj.
Proof.
  apply (X22_typed_pool_objects_aligned (T := DummyPoint) 2 10 [16; 1024]
           ltac:(lia) ltac:(reflexivity) ltac:(by vm_compute)
           ltac:(by exists 3) ltac:(lia) DummyPoint_confined example_spaced).
Defined.
